(** * canto-next: the daemon's live-state engine

    A shallow embedding of [canto_next/tag.py], [canto_next/canto_backend.py]
    and [canto_next/storage.py], and the properties of the tag registry, the
    command dispatcher and the storage layer.

    Conventions.
    - A Python [dict] whose iteration order is observable is an association
      list in insertion order ([Dict]); a dictionary that is only looked up,
      or whose loop body treats every entry independently, is a [gmap].
    - A Python [list] is a [list]; [l.remove(x)] removes the first
      occurrence ([list_remove1]).
    - [call_hook(name, args)] appends the call to the hook calls the
      operation has made, oldest first; [Backend.deliver] gives a call to
      the callbacks subscribed to its name. The two halves can be told
      apart because no callback subscribed in the sources writes to what
      its caller reads after the call: the callbacks of the dispatcher
      write to sockets, watch lists, the protection registry and the feeds,
      and [add_tag] and [do_tag_changes] read the tag registry only.
    - Exceptions are explicit: a handler returns [Ok] or [Raise], and the
      state it has mutated so far is kept in both cases. *)

From stdpp Require Import base list strings gmap sorting.
From Equations Require Import Equations.

Local Open Scope string_scope.
Local Open Scope list_scope.

(** ** Python list helpers *)

Section pylist.
Context {A : Type} `{EqDecision A}.

(** [x in l] *)
Definition py_in (x : A) (l : list A) : bool := bool_decide (x ∈ l).

(** [l.remove(x)]: drops the first occurrence of [x]. The callers below
    test [x in l] first, so the [ValueError] case is never reached. *)
Fixpoint list_remove1 (x : A) (l : list A) : list A :=
  match l with
  | [] => []
  | y :: l' => if decide (x = y) then l' else y :: list_remove1 x l'
  end.

Lemma list_remove1_length x l :
  x ∈ l → length (list_remove1 x l) < length l.
Proof.
  induction l as [|y l IH]; simpl; intros H.
  - by apply elem_of_nil in H.
  - case_decide; [lia|]. simpl.
    apply elem_of_cons in H as [?|H]; [done|]. specialize (IH H). lia.
Qed.

(** [while x in l: l.remove(x)]; every round shortens the list. *)
Equations? remove_while (x : A) (l : list A) : list A by wf (length l) lt :=
  remove_while x l with decide (x ∈ l) := {
    | left _ => remove_while x (list_remove1 x l)
    | right _ => l }.
Proof. by apply list_remove1_length. Qed.

End pylist.

(** ** Python dictionaries in insertion order *)

Module Dict.
Section dict.
Context {V : Type}.

(** [d[k]], [None] standing for [KeyError] *)
Fixpoint get (k : string) (d : list (string * V)) : option V :=
  match d with
  | [] => None
  | (k', v) :: d' => if decide (k = k') then Some v else get k d'
  end.

(** [d[k] = v]: an existing key keeps its place, a new key goes last *)
Fixpoint set (k : string) (v : V) (d : list (string * V)) : list (string * V) :=
  match d with
  | [] => [(k, v)]
  | (k', v') :: d' =>
      if decide (k = k') then (k, v) :: d' else (k', v') :: set k v d'
  end.

(** [k in d] *)
Definition mem (k : string) (d : list (string * V)) : bool :=
  bool_decide (is_Some (get k d)).

(** [d.keys()], in iteration order *)
Definition keys (d : list (string * V)) : list string := d.*1.

End dict.
End Dict.

(** ** The hook bus: published calls

  [hooks.call_hook(name, args)]. The argument lists that occur in the
  three source files are: a list of tag names ([[[name]]]), one tag name,
  the changed-section map of the configuration, a file name and a socket. *)

Module Hooks.
Definition config_map := list (string * list (string * string)).

Inductive hook_arg :=
| ArgTags (names : list string)
| ArgTag (name : string)
| ArgConfig (changes : config_map)
| ArgFile (filename : string)
| ArgSocket (socket : nat).

Definition hook_call : Type := string * hook_arg.

#[export] Instance hook_arg_eq_dec : EqDecision hook_arg.
Proof. solve_decision. Defined.
End Hooks.
Import Hooks.

(** ** tag.py: the tag registry *)

Module Tag.

Definition transform := list string → list string.

Record CantoTags := mkTags {
  tags : list (string * list string);
  changed_tags : list string;
  tag_transforms : list (string * transform);
  extra_tags : list (string * list string)
}.

Definition set_tags (d : list (string * list string)) (t : CantoTags) :=
  mkTags d (changed_tags t) (tag_transforms t) (extra_tags t).
Definition set_changed_tags (c : list string) (t : CantoTags) :=
  mkTags (tags t) c (tag_transforms t) (extra_tags t).

(** [CantoTags.__init__]; it also subscribes [do_tag_changes] to
    ["daemon_work_done"]. *)
Definition init : CantoTags := mkTags [] [] [] [].

(** [self.tags[tag]] for a key known to be present *)
Definition tag_items (tag : string) (t : CantoTags) : list string :=
  default [] (Dict.get tag (tags t)).

Definition items_to_tags (ids : list string) (t : CantoTags) : list string :=
  foldl (λ acc id,
    foldl (λ acc tag,
      if py_in id (tag_items tag t) && negb (py_in tag acc)
      then acc ++ [tag] else acc) acc (Dict.keys (tags t))) [] ids.

Definition tag_changed (tag : string) (t : CantoTags) : CantoTags :=
  if py_in tag (changed_tags t) then t
  else set_changed_tags (changed_tags t ++ [tag]) t.

Definition get_tag (tag : string) (t : CantoTags) : list string :=
  if py_in tag (Dict.keys (tags t)) then tag_items tag t else [].

Definition get_tags (t : CantoTags) : list string := Dict.keys (tags t).

Definition tag_transform (tag : string) (f : transform) (t : CantoTags) :=
  mkTags (tags t) (changed_tags t) (Dict.set tag f (tag_transforms t)) (extra_tags t).

Definition set_extra_tags (tag : string) (extras : list string) (t : CantoTags) :=
  mkTags (tags t) (changed_tags t) (tag_transforms t) (Dict.set tag extras (extra_tags t)).

Definition reset (t : CantoTags) : CantoTags :=
  let t := mkTags (tags t) (changed_tags t) [] [] in
  let t := foldl (λ t tag, tag_changed tag t) t (Dict.keys (tags t)) in
  set_tags [] t.

(** The names [add_tag] visits: [[ name ] + extras] *)
Definition alladded (name : string) (t : CantoTags) : list string :=
  name :: (if Dict.mem name (extra_tags t)
           then default [] (Dict.get name (extra_tags t)) else []).

(** The loop body of [add_tag] is two statements. The second component
    of the state collects the hook calls, oldest first. *)

(** [if name not in self.tags: ...] *)
Definition add_tag_create (name : string)
    (st : CantoTags * list hook_call) : CantoTags * list hook_call :=
  if negb (Dict.mem name (tags st.1))
  then (set_tags (Dict.set name [] (tags st.1)) st.1,
        st.2 ++ [("daemon_new_tag", ArgTags [name])])
  else st.

(** [if id not in self.tags[name]: ...] *)
Definition add_tag_append (id name : string)
    (st : CantoTags * list hook_call) : CantoTags * list hook_call :=
  if negb (py_in id (tag_items name st.1))
  then (tag_changed name
          (set_tags (Dict.set name (tag_items name st.1 ++ [id]) (tags st.1)) st.1),
        st.2)
  else st.

Definition add_tag_body (id : string)
    (st : CantoTags * list hook_call) (name : string) : CantoTags * list hook_call :=
  add_tag_append id name (add_tag_create name st).

Definition add_tag (id name : string) (t : CantoTags) : CantoTags * list hook_call :=
  foldl (add_tag_body id) (t, []) (alladded name t).

Definition remove_tag (id name : string) (t : CantoTags) : CantoTags :=
  if Dict.mem name (tags t) && py_in id (tag_items name t)
  then tag_changed name
         (set_tags (Dict.set name (list_remove1 id (tag_items name t)) (tags t)) t)
  else t.

Definition remove_id_body (id : string) (t : CantoTags) (tag : string) : CantoTags :=
  if py_in id (tag_items tag t)
  then tag_changed tag
         (set_tags (Dict.set tag (list_remove1 id (tag_items tag t)) (tags t)) t)
  else t.

Definition remove_id (id : string) (t : CantoTags) : CantoTags :=
  foldl (remove_id_body id) t (Dict.keys (tags t)).

(** [do_tag_changes]: one ["daemon_tag_change"] call per entry of
    [changed_tags], then the list is emptied. The write lock taken around
    the loop has no effect on the sequential result. *)
Definition do_tag_changes (t : CantoTags) : CantoTags * list hook_call :=
  (set_changed_tags [] t,
   foldl (λ published tag, published ++ [("daemon_tag_change", ArgTag tag)])
         [] (changed_tags t)).

(** *** Sequences of operations *)

Inductive op :=
| AddTag (id name : string)
| RemoveTag (id name : string)
| RemoveId (id : string).

Definition step (st : CantoTags * list hook_call) (o : op) : CantoTags * list hook_call :=
  let '(t, published) := st in
  match o with
  | AddTag id name => let '(t', evs) := add_tag id name t in (t', published ++ evs)
  | RemoveTag id name => (remove_tag id name t, published)
  | RemoveId id => (remove_id id t, published)
  end.

Definition run (ops : list op) (t : CantoTags) : CantoTags * list hook_call :=
  foldl step (t, []) ops.

(** *** Batches

    What happens to the registry between two runs of [do_tag_changes]. *)

Inductive mutation :=
| Op (o : op)
| Reset
| SetExtraTags (tag : string) (extras : list string).

Definition mutate (st : CantoTags * list hook_call) (m : mutation) : CantoTags * list hook_call :=
  match m with
  | Op o => step st o
  | Reset => (reset st.1, st.2)
  | SetExtraTags tag extras => (set_extra_tags tag extras st.1, st.2)
  end.

(** The mutation calls [tag_changed(tag)] in the registry [t]: run on an
    emptied dirty list, it leaves [tag] in it. *)
Definition marks_dirty (tag : string) (t : CantoTags) (m : mutation) : bool :=
  py_in tag (changed_tags (mutate (set_changed_tags [] t, []) m).1).

(** The number of mutations of the batch that mark [tag] dirty *)
Fixpoint dirty_count (tag : string) (st : CantoTags * list hook_call)
    (batch : list mutation) : nat :=
  match batch with
  | [] => 0
  | m :: batch' =>
      (if marks_dirty tag st.1 m then 1 else 0) + dirty_count tag (mutate st m) batch'
  end.

End Tag.

(** ** Python exceptions *)

Module Py.

(** The exceptions the modelled code can meet; all of them are instances
    of Python's [Exception]. *)
Inductive exn :=
| KeyError (key : string)
| TypeError
| AttributeError
| Exception (msg : string).

Inductive Res (A : Type) :=
| Ok (a : A)
| Raise (e : exn).
Arguments Ok {A} a.
Arguments Raise {A} e.

End Py.
Import Py.

(** ** The protection registry *)

Module Protect.

(** Modelled from the spec: the module [protect] is not among the sources.
    Section 4.2: [protect(key, ids)] adds ids under [key = (owner, reason)],
    creating the entry if absent; [unprotect(key)] removes the entire entry;
    [unprotect_one(key, id)] removes a single id and keeps an emptied entry;
    [protected(id)] is true iff any entry anywhere contains the id. *)
Definition protect (key : nat * string) (ids : list string)
    (p : gmap (nat * string) (gset string)) : gmap (nat * string) (gset string) :=
  <[key := default ∅ (p !! key) ∪ list_to_set ids]> p.

(** Modelled from the spec: [unprotect(key)] of the same module removes
    the entire entry. *)
Definition unprotect (key : nat * string)
    (p : gmap (nat * string) (gset string)) : gmap (nat * string) (gset string) :=
  delete key p.


(** Modelled from the spec: [protected(id)] of the same module is true
    iff any entry anywhere contains the id. *)
Definition protected (id : string) (p : gmap (nat * string) (gset string)) : bool :=
  bool_decide (map_Exists (λ _ ids, id ∈ ids) p).

End Protect.

(** ** The feed registry, as far as the dispatcher uses it *)

Module Feed.

(** [item["id"]] *)
Record item := mkItem { item_id : string }.

Record feed := mkFeed { URL : string; items : list item }.

(** Modelled from the spec: [allfeeds.really_dead(feed)] of the module
    [feed], which is not among the sources. Section 4.1: the feed is
    permanently discarded (section 3: discarded from the feed registry).
    The registry [dead_feeds] is keyed by URL. *)
Definition really_dead (f : feed) (dead_feeds : gmap string feed) : gmap string feed :=
  delete (URL f) dead_feeds.

End Feed.

(** ** canto_backend.py: the command dispatcher and the watch registry *)

Module Backend.
Import Feed.

Inductive payload :=
| PString (s : string)
| PTags (names : list string)
| PItems (response : list (string * list string))
| PConfigs (ret : config_map).

(** What a handler does to the outside, oldest first: [self.write], the
    logger, and [call_hook]. *)
Inductive effect :=
| Write (socket : nat) (cmd : string) (p : payload)
| Log (level msg : string)
| Published (hook : string) (arg : hook_arg).

(** The bound methods [setup_hooks] subscribes *)
Inductive callback :=
| CbNewTag
| CbDelTag
| CbConfigChange
| CbTagChange
| CbKillSocket.

(** [self.watches] *)
Record Watches := mkWatches {
  new_tags : list nat;
  del_tags : list nat;
  config : list nat;
  tags : gmap string (list nat)
}.

(** The dispatcher together with the module-level objects it works on:
    [self.conf], [alltags], [protection], [allfeeds.dead_feeds] and the
    hook table. [C] is the state of the configuration object. *)
Record World (C : Type) := mkWorld {
  watches : Watches;
  conf : C;
  alltags : Tag.CantoTags;
  protection : gmap (nat * string) (gset string);
  dead_feeds : gmap string feed;
  hooks : list (string * callback);
  trace : list effect
}.
Arguments mkWorld {C}.
Arguments watches {C}.
Arguments conf {C}.
Arguments alltags {C}.
Arguments protection {C}.
Arguments dead_feeds {C}.
Arguments hooks {C}.
Arguments trace {C}.

(** The collaborators whose code is not among the sources, taken as an
    interface: [format.escsplit(opt, ".")] and the configuration object
    (section 6 of the specification). A call that can fail returns [Raise].
    [conf_get c section setting] is [c.get("", section, setting, None, 0)]. *)
Class Collaborators (C : Type) := {
  escsplit : string → string * option string;
  global_transform : C → option (list string → list string);
  get_section : C → string → Res (list (string * string));
  get_sections : C → config_map;
  conf_get : C → string → string → Res string;
  has_section : C → string → bool;
  conf_set : string → string → string → C → C;
  remove_section : string → C → C;
  conf_write : C → C;
  conf_parse : World C → World C
}.

Section handlers.
Context {C : Type} `{Collaborators C}.

(** State and exceptions: the state reached when an exception is raised
    is kept, as an object mutated in Python stays mutated. *)
Definition M (A : Type) : Type := World C → Res A * World C.

Definition ret {A} (a : A) : M A := λ w, (Ok a, w).

Definition bind {A B} (m : M A) (f : A → M B) : M B :=
  λ w, match m w with
       | (Ok a, w') => f a w'
       | (Raise e, w') => (Raise e, w')
       end.

Definition raise {A} (e : exn) : M A := λ w, (Raise e, w).

Definition get : M (World C) := λ w, (Ok w, w).

Definition modify (f : World C → World C) : M unit := λ w, (Ok tt, f w).

(** [try: m except: handler], the bare [except] of the source *)
Definition try_except {A} (m : M A) (handler : M A) : M A :=
  λ w, match m w with
       | (Ok a, w') => (Ok a, w')
       | (Raise _, w') => handler w'
       end.

(** [for x in l: body], the accumulator standing for the local variables
    the body assigns *)
Fixpoint for_acc {X S} (l : list X) (body : S → X → M S) (s : S) : M S :=
  match l with
  | [] => ret s
  | x :: l' => bind (body s x) (for_acc l' body)
  end.

Definition for_each {X} (l : list X) (body : X → M unit) : M unit :=
  for_acc l (λ _ x, body x) tt.

Definition set_watches (ws : Watches) (w : World C) : World C :=
  mkWorld ws (conf w) (alltags w) (protection w) (dead_feeds w) (hooks w) (trace w).
Definition set_conf (c : C) (w : World C) : World C :=
  mkWorld (watches w) c (alltags w) (protection w) (dead_feeds w) (hooks w) (trace w).
Definition set_protection (p : gmap (nat * string) (gset string)) (w : World C) : World C :=
  mkWorld (watches w) (conf w) (alltags w) p (dead_feeds w) (hooks w) (trace w).
Definition set_dead_feeds (d : gmap string feed) (w : World C) : World C :=
  mkWorld (watches w) (conf w) (alltags w) (protection w) d (hooks w) (trace w).
Definition set_hooks (h : list (string * callback)) (w : World C) : World C :=
  mkWorld (watches w) (conf w) (alltags w) (protection w) (dead_feeds w) h (trace w).
Definition emit (e : effect) (w : World C) : World C :=
  mkWorld (watches w) (conf w) (alltags w) (protection w) (dead_feeds w) (hooks w)
          (trace w ++ [e]).

(** Modelled from the spec: [self.write(socket, cmd, payload)] of the
    class [CantoServer] in the module [server], which is not among the
    sources. Section 4.1: the response is written back to the connection. *)
Definition write (socket : nat) (cmd : string) (p : payload) : M unit :=
  modify (emit (Write socket cmd p)).

(** [log.error(msg)], [log.debug(msg)] *)
Definition log (level msg : string) : M unit := modify (emit (Log level msg)).

(** [call_hook(hook, [arg])]: the call is recorded; [deliver] below runs
    the subscribers. *)
Definition call_hook (hook : string) (arg : hook_arg) : M unit :=
  modify (emit (Published hook arg)).

(** Modelled from the spec: [on_hook] of the module [hooks], which is not
    among the sources. Section 2: [subscribe(eventName, callback)];
    callbacks are invoked in subscription order. *)
Definition on_hook (hook : string) (cb : callback) : M unit :=
  modify (λ w, set_hooks (hooks w ++ [(hook, cb)]) w).

(** *** Dead feeds *)

(** The inner [for ... break ... else] of [check_dead_feeds]: [true] when
    the loop left through [break]. *)
Fixpoint still_committed (p : gmap (nat * string) (gset string)) (its : list item) : bool :=
  match its with
  | [] => false
  | it :: its' =>
      if Protect.protected (item_id it) p then true else still_committed p its'
  end.

(** The body of the outer loop of [check_dead_feeds]; [dead_feeds[URL]]
    is looked up in the registry as the earlier rounds have left it. *)
Definition check_dead_feeds_body (url : string) : M unit :=
  bind get (λ w,
    match dead_feeds w !! url with
    | None => raise (KeyError url)
    | Some feed =>
        if still_committed (protection w) (items feed)
        then log "debug" ("Dead feed " ++ URL feed ++ " still committed.")%string
        else modify (λ w, set_dead_feeds (really_dead feed (dead_feeds w)) w)
    end).

(** The loop runs over [dead_feeds.keys()], a list made before it starts. *)
Definition check_dead_feeds : M unit :=
  bind get (λ w0,
  for_each (map_to_list (dead_feeds w0)).*1 check_dead_feeds_body).

Notation "x <- m ;; k" := (bind m (λ x, k))
  (at level 100, m at next level, right associativity, only parsing).
Notation "m ;;; k" := (bind m (λ _, k))
  (at level 100, right associativity, only parsing).

(** *** Reactions to hooks *)

Definition on_new_tag (tags : list string) : M unit :=
  w <- get ;;
  for_each (new_tags (watches w)) (λ socket, write socket "NEWTAGS" (PTags tags)).

Definition on_tag_change (tag : string) : M unit :=
  w <- get ;;
  match tags (watches w) !! tag with
  | Some sockets => for_each sockets (λ socket, write socket "TAGCHANGE" (PString tag))
  | None => ret tt
  end.

Definition on_del_tag (tags : list string) : M unit :=
  w <- get ;;
  for_each (del_tags (watches w)) (λ socket, write socket "DELTAGS" (PTags tags)).

Definition on_kill_socket (socket : nat) : M unit :=
  modify (λ w, set_watches
    (mkWatches (new_tags (watches w)) (del_tags (watches w))
               (remove_while socket (config (watches w))) (tags (watches w))) w) ;;;
  modify (λ w, set_watches
    (mkWatches (remove_while socket (new_tags (watches w))) (del_tags (watches w))
               (config (watches w)) (tags (watches w))) w) ;;;
  modify (λ w, set_watches
    (mkWatches (new_tags (watches w)) (remove_while socket (del_tags (watches w)))
               (config (watches w)) (tags (watches w))) w) ;;;
  modify (λ w, set_watches
    (mkWatches (new_tags (watches w)) (del_tags (watches w)) (config (watches w))
               (remove_while socket <$> tags (watches w))) w) ;;;
  modify (λ w, set_protection (Protect.unprotect (socket, "auto") (protection w)) w) ;;;
  check_dead_feeds.

Definition setup_hooks : M unit :=
  on_hook "new_tag" CbNewTag ;;;
  on_hook "del_tag" CbDelTag ;;;
  on_hook "config_change" CbConfigChange ;;;
  on_hook "tag_change" CbTagChange ;;;
  on_hook "kill_socket" CbKillSocket.

(** *** Commands *)

Definition apply_transforms (c : C) (tag : list string) : list string :=
  match global_transform c with
  | Some f => f tag
  | None => tag
  end.

Definition cmd_ping (socket : nat) : M unit := write socket "PONG" (PString "").

(** The loop of [cmd_items]; the accumulator is [response]. *)
Definition cmd_items_body (socket : nat)
    (response : list (string * list string)) (tag : string)
    : M (list (string * list string)) :=
  w <- get ;;
  let response :=
    Dict.set tag (apply_transforms (conf w) (Tag.get_tag tag (alltags w))) response in
  modify (λ w, set_protection
    (Protect.protect (socket, "auto") (default [] (Dict.get tag response)) (protection w)) w) ;;;
  ret response.

Definition cmd_items (socket : nat) (args : list string) : M unit :=
  response <- for_acc args (cmd_items_body socket) [] ;;
  write socket "ITEMS" (PItems response).

(** [not setting] *)
Definition falsy (setting : option string) : bool :=
  match setting with
  | Some s => bool_decide (s = "")
  | None => true
  end.

(** The loop of [cmd_configs]; the accumulator is [ret]. Only the part
    after [try:] is guarded. *)
Definition cmd_configs_body (r : config_map) (opt : string) : M config_map :=
  let '(section, setting) := escsplit opt in
  if falsy setting then
    w <- get ;;
    match get_section (conf w) opt with
    | Ok s => ret (Dict.set opt s r)
    | Raise e => raise e
    end
  else
    try_except
      (w <- get ;;
       match conf_get (conf w) section (default "" setting) with
       | Ok val =>
           match Dict.get section r with
           | Some s => ret (Dict.set section (Dict.set (default "" setting) val s) r)
           | None => ret (Dict.set section [(default "" setting, val)] r)
           end
       | Raise e => raise e
       end)
      (log "error" ("Exception getting option " ++ opt)%string ;;; ret r).

Definition cmd_configs (socket : nat) (args : list string) : M unit :=
  r <- match args with
       | _ :: _ => for_acc args cmd_configs_body []
       | [] => w <- get ;; ret (get_sections (conf w))
       end ;;
  write socket "CONFIGS" (PConfigs r).

(** The loop over the settings of one section in [cmd_setconfigs];
    the accumulator is [changes]. *)
Definition cmd_setconfigs_set (section : string) (settings : list (string * string))
    (changes : config_map) (setting : string) : M config_map :=
  let value := default "" (Dict.get setting settings) in
  modify (λ w, set_conf (conf_set section setting value (conf w)) w) ;;;
  ret (Dict.set section [(setting, value)] changes).

Definition cmd_setconfigs_body (args : config_map)
    (changes : config_map) (section : string) : M config_map :=
  let settings := default [] (Dict.get section args) in
  w <- get ;;
  if bool_decide (settings = []) && has_section (conf w) section then
    modify (λ w, set_conf (remove_section section (conf w)) w) ;;;
    ret changes
  else
    for_acc (Dict.keys settings) (cmd_setconfigs_set section settings) changes.

Definition cmd_setconfigs (socket : nat) (args : config_map) : M unit :=
  changes <- for_acc (Dict.keys args) (cmd_setconfigs_body args) [] ;;
  modify (λ w, set_conf (conf_write (conf w)) w) ;;;
  call_hook "config_change" (ArgConfig changes).

Definition cmd_watchconfigs (socket : nat) : M unit :=
  modify (λ w, set_watches
    (mkWatches (new_tags (watches w)) (del_tags (watches w))
               (config (watches w) ++ [socket]) (tags (watches w))) w).

Definition cmd_watchnewtags (socket : nat) : M unit :=
  modify (λ w, set_watches
    (mkWatches (new_tags (watches w) ++ [socket]) (del_tags (watches w))
               (config (watches w)) (tags (watches w))) w).

Definition cmd_watchdeltags (socket : nat) : M unit :=
  modify (λ w, set_watches
    (mkWatches (new_tags (watches w)) (del_tags (watches w) ++ [socket])
               (config (watches w)) (tags (watches w))) w).

Definition cmd_watchtags (socket : nat) (args : list string) : M unit :=
  for_each args (λ tag,
    log "debug" ("socket watching tag " ++ tag)%string ;;;
    modify (λ w, set_watches
      (mkWatches (new_tags (watches w)) (del_tags (watches w)) (config (watches w))
         (match tags (watches w) !! tag with
          | Some sockets => <[tag := sockets ++ [socket]]> (tags (watches w))
          | None => <[tag := [socket]]> (tags (watches w))
          end)) w)).

Definition cmd_protect (socket : nat) (args : list (string * list string)) : M unit :=
  for_each (Dict.keys args) (λ reason,
    modify (λ w, set_protection
      (Protect.protect (socket, reason) (default [] (Dict.get reason args)) (protection w)) w)).


(** *** Configuration changes *)

Definition on_config_change (change : config_map) : M unit :=
  w <- get ;;
  for_each (config (watches w)) (λ socket, cmd_configs socket (Dict.keys change)) ;;;
  w <- get ;;
  let pretags := Dict.keys (Tag.tags (alltags w)) in
  modify conf_parse ;;;
  w <- get ;;
  let newtags := filter (λ t, t ∉ pretags) (Dict.keys (Tag.tags (alltags w))) in
  let oldtags := filter (λ t, Dict.get t (Tag.tags (alltags w)) = None) pretags in
  (if bool_decide (newtags = []) then ret tt else call_hook "new_tag" (ArgTags newtags)) ;;;
  (if bool_decide (oldtags = []) then ret tt else call_hook "del_tag" (ArgTags oldtags)) ;;;
  check_dead_feeds.

(** *** Delivery of a published hook call *)

Definition run_callback (cb : callback) (arg : hook_arg) : M unit :=
  match cb, arg with
  | CbNewTag, ArgTags tags => on_new_tag tags
  | CbDelTag, ArgTags tags => on_del_tag tags
  | CbConfigChange, ArgConfig change => on_config_change change
  | CbTagChange, ArgTag tag => on_tag_change tag
  | CbKillSocket, ArgSocket socket => on_kill_socket socket
  | _, _ => raise TypeError
  end.

(** Modelled from the spec: the delivery half of [call_hook] of the module
    [hooks], which is not among the sources. Section 2: [publish(eventName,
    args)] invokes all callbacks subscribed to [eventName] synchronously,
    in subscription order; a callback failure is not isolated. *)
Definition deliver (c : hook_call) : M unit :=
  w <- get ;;
  for_each (filter (λ h, h.1 = c.1) (hooks w)) (λ h, run_callback h.2 c.2).

End handlers.
End Backend.

(** ** A configuration object to run the handlers on *)

Module DictConfig.
Import Backend.

(** [escsplit] on an option path without escapes: the text before the
    first dot, and the text after it when there is a dot. *)
Fixpoint split_dot (s : string) : string * option string :=
  match s with
  | EmptyString => (EmptyString, None)
  | String c s' =>
      if decide (String c EmptyString = ".") then (EmptyString, Some s')
      else let '(a, b) := split_dot s' in (String c a, b)
  end.

Definition dict_get_section (c : config_map) (section : string) : Res (list (string * string)) :=
  match Dict.get section c with
  | Some s => Ok s
  | None => Raise (KeyError section)
  end.

Definition dict_get (c : config_map) (section setting : string) : Res string :=
  match Dict.get section c with
  | Some s =>
      match Dict.get setting s with
      | Some v => Ok v
      | None => Raise (KeyError setting)
      end
  | None => Raise (KeyError section)
  end.

Definition dict_set (section setting value : string) (c : config_map) : config_map :=
  Dict.set section (Dict.set setting value (default [] (Dict.get section c))) c.

Definition dict_remove_section (section : string) (c : config_map) : config_map :=
  filter (λ kv, kv.1 ≠ section) c.

(** Sections are held in a dictionary; looking up a section or a setting
    that is not there raises [KeyError], as a dictionary lookup does.
    Nothing is transformed, written or reparsed. *)
#[export] Instance dict_collaborators : Collaborators config_map := {|
  escsplit := split_dot;
  global_transform := λ _, None;
  get_section := dict_get_section;
  get_sections := λ c, c;
  conf_get := dict_get;
  has_section := λ c section, Dict.mem section c;
  conf_set := dict_set;
  remove_section := dict_remove_section;
  conf_write := λ c, c;
  conf_parse := λ w, w
|}.

(** A fresh dispatcher: [init] up to [setup_hooks], with nothing watched,
    protected or dead. *)
Definition empty_world (c : config_map) : World config_map :=
  mkWorld (mkWatches [] [] [] ∅) c Tag.init ∅ ∅ [] [].

End DictConfig.

(** ** storage.py: the shelf *)

Module Storage.

Inductive action :=
| HookCalled (hook : string) (arg : hook_arg)
| ShelveOpen (filename mode : string) (writeback : bool)
| ShelfSync
| ShelfClose
| DbmOpen (filename mode : string)
| DbmReorganize
| DbmClose
| LogWarn (msg : string)
| LogDebug (msg : string).

(** The dbm engine behind the file: what [dbm.whichdb] answers, and whether
    the three calls of [_reorganize] raise (with which message). *)
Record Dbm := mkDbm {
  whichdb : string → string;
  open_raises : option string;
  reorganize_raises : option string;
  close_raises : option string
}.

(** [self.shelf] is [None] once closed; an open shelf holds its records. *)
Record CantoShelf := mkShelf {
  writeback : bool;
  filename : string;
  shelf : option (gmap string string)
}.

(** The object and the file it is backed by *)
Record State := mkState {
  self : CantoShelf;
  file : gmap string string
}.

(** A computation that leaves a trace of actions, oldest first *)
Definition T (A : Type) : Type := Res A * list action.

Definition act (a : action) : T unit := (Ok tt, [a]).

(** A call that raises [Exception(msg)] when the engine says so *)
Definition attempt (a : action) (raises : option string) : T unit :=
  match raises with
  | Some msg => (Raise (Exception msg), [a])
  | None => (Ok tt, [a])
  end.

Definition seq {A} (m : T unit) (k : T A) : T A :=
  match m with
  | (Ok _, tr) => (k.1, tr ++ k.2)
  | (Raise e, tr) => (Raise e, tr)
  end.

(** [try: body except Exception as e: handler else: orelse] *)
Definition try_except_else (body : T unit) (handler : exn → T unit) (orelse : T unit) : T unit :=
  match body with
  | (Ok _, tr) => (orelse.1, tr ++ orelse.2)
  | (Raise e, tr) => ((handler e).1, tr ++ (handler e).2)
  end.

Definition format_exc (e : exn) : string :=
  match e with
  | Exception msg => msg
  | KeyError k => "KeyError: " ++ k
  | TypeError => "TypeError"
  | AttributeError => "AttributeError"
  end%string.


Definition __setitem__ (name value : string) (st : State) : Res unit * State :=
  match shelf (self st) with
  | Some sh => (Ok tt, mkState (mkShelf (writeback (self st)) (filename (self st))
                                        (Some (<[name := value]> sh))) (file st))
  | None => (Raise TypeError, st)
  end.

Definition __getitem__ (name : string) (st : State) : Res string :=
  match shelf (self st) with
  | Some sh => match sh !! name with Some v => Ok v | None => Raise (KeyError name) end
  | None => Raise TypeError
  end.

Definition __contains__ (name : string) (st : State) : Res bool :=
  match shelf (self st) with
  | Some sh => Ok (bool_decide (is_Some (sh !! name)))
  | None => Raise TypeError
  end.

Definition __delitem__ (name : string) (st : State) : Res unit * State :=
  match shelf (self st) with
  | Some sh =>
      match sh !! name with
      | Some _ => (Ok tt, mkState (mkShelf (writeback (self st)) (filename (self st))
                                           (Some (delete name sh))) (file st))
      | None => (Raise (KeyError name), st)
      end
  | None => (Raise TypeError, st)
  end.

Definition sync (st : State) : Res unit * State * list action :=
  match shelf (self st) with
  | Some sh => (Ok tt, mkState (self st) sh, [ShelfSync])
  | None => (Raise AttributeError, st, [])
  end.

Definition _reorganize (db : Dbm) (s : CantoShelf) : T unit :=
  try_except_else
    (seq (attempt (DbmOpen (filename s) "wu") (open_raises db))
    (seq (attempt DbmReorganize (reorganize_raises db))
         (attempt DbmClose (close_raises db))))
    (λ e, seq (act (LogWarn "Failed to reorganize db:")) (act (LogWarn (format_exc e))))
    (act (LogDebug "Successfully trimmed db")).

Definition close (db : Dbm) (st : State) : Res unit * State * list action :=
  match shelf (self st) with
  | None => (Raise AttributeError, st, [])
  | Some sh =>
      let r :=
        seq (act ShelfSync)
        (seq (act ShelfClose)
        (seq (if bool_decide (whichdb db (filename (self st)) = "dbm.gnu")
              then _reorganize db (self st) else (Ok tt, []))
             (act (HookCalled "daemon_db_close" (ArgFile (filename (self st))))))) in
      (r.1,
       match r.1 with
       | Ok _ => mkState (mkShelf (writeback (self st)) (filename (self st)) None) sh
       | Raise _ => mkState (self st) sh
       end,
       r.2)
  end.


End Storage.

(** ** Insertion times in a history of tag operations

    The two readings of "the order in which the ids were inserted" that the
    properties below compare. A history is a list of operations; its
    positions are the clock. *)

Module TagHistory.
Import Tag.

(** The operation is an [add_tag] of [id] that visits the tag [n]. The
    names visited depend on [extra_tags] only, which no operation of a
    history changes; [t0] is the registry the history starts from. *)
Definition inserts (t0 : CantoTags) (n id : string) (o : op) : bool :=
  match o with
  | AddTag i name => bool_decide (i = id ∧ n ∈ alladded name t0)
  | _ => false
  end.

(** The operation removes [id] from the tag [n] if it is there. *)
Definition removes (n id : string) (o : op) : bool :=
  match o with
  | RemoveTag i name => bool_decide (i = id ∧ name = n)
  | RemoveId i => bool_decide (i = id)
  | AddTag _ _ => false
  end.

(** The position of the first [add_tag] of [id] to [n] in the history *)
Definition first_inserted (t0 : CantoTags) (ops : list op) (n id : string) : option nat :=
  fst <$> list_find (λ o, inserts t0 n id o = true) ops.

(** One tick of the clock [k]: an id that is not in the tag and is added
    gets the time [k]; an id that is removed loses its time. *)
Definition tick (t0 : CantoTags) (n id : string) (o : op) (k : nat)
    (since : option nat) : option nat :=
  if inserts t0 n id o then
    match since with
    | Some a => Some a
    | None => Some k
    end
  else if removes n id o then None
  else since.

Fixpoint present_since (t0 : CantoTags) (n id : string) (ops : list op) (k : nat)
    (since : option nat) : option nat :=
  match ops with
  | [] => since
  | o :: ops' => present_since t0 n id ops' (S k) (tick t0 n id o k since)
  end.

(** The position of the [add_tag] that put [id] into [n] for its current
    stay, [None] when [id] is not in [n] at the end of the history *)
Definition last_inserted (t0 : CantoTags) (ops : list op) (n id : string) : option nat :=
  present_since t0 n id ops 0 None.

Definition stamp_lt (a b : option nat) : Prop :=
  match a, b with
  | Some a, Some b => a < b
  | _, _ => False
  end.

(** Earlier in [l] means earlier in time, both ids having a time. *)
Definition ordered_by (stamp : string → option nat) (l : list string) : Prop :=
  StronglySorted (λ x y, stamp_lt (stamp x) (stamp y)) l.

(** The reading of the specification: no id twice, and the ids in the
    order of their first insertion *)
Definition first_insertion_order (t0 : CantoTags) (ops : list op) (n : string) : Prop :=
  let l := get_tag n (run ops t0).1 in
  NoDup l ∧ ordered_by (first_inserted t0 ops n) l.

(** [l.append(x)] guarded by [x not in l] *)
Definition ins (id : string) (l : list string) : list string :=
  if py_in id l then l else l ++ [id].

(** The number of times a call occurs in a list of published calls *)
Definition times (c : hook_call) (published : list hook_call) : nat :=
  length (filter (λ c', c' = c) published).

End TagHistory.

(** ** canto_backend.py: the fetch countdown of the main loop *)

Module Timer.

(** [self.alarmed] and [self.fetch_timer] *)
Record Clock := mkClock { alarmed : bool; fetch_timer : Z }.

(** [init]: [self.fetch_timer = 0], [self.alarmed = 0] *)
Definition init : Clock := mkClock false 0.

(** [sig_alrm]: [self.alarmed = 1]; the alarm is armed again. *)
Definition sig_alrm (c : Clock) : Clock := mkClock true (fetch_timer c).

(** The block [if self.alarmed:] of [run]. The second component tells
    whether [self.fetch.fetch()] was called. *)
Definition countdown (c : Clock) : Clock * bool :=
  if alarmed c then
    let fetch_timer := (fetch_timer c - 1)%Z in
    if (fetch_timer <=? 0)%Z then (mkClock false 60, true)
    else (mkClock false fetch_timer, false)
  else (c, false).

(** Rounds of the loop of [run], as far as the countdown goes: each round
    is told whether the alarm signal has arrived since the round before.
    The result counts the calls of [self.fetch.fetch()]. *)
Fixpoint rounds (signals : list bool) (c : Clock) : Clock * nat :=
  match signals with
  | [] => (c, 0)
  | signal :: signals' =>
      let c1 := countdown (if signal then sig_alrm c else c) in
      let r := rounds signals' c1.1 in
      (r.1, (if c1.2 then 1 else 0) + r.2)
  end.

(** The number of rounds that saw the alarm *)
Definition alarms (signals : list bool) : nat :=
  length (filter (λ signal, signal = true) signals).

End Timer.

(** * Properties *)

(** ** Lists *)

Section pylist_facts.
Context {A : Type} `{EqDecision A}.
Implicit Types (x y : A) (l : list A).

Lemma list_remove1_notin x l : x ∉ l → list_remove1 x l = l.
Proof.
  induction l as [|y l IH]; simpl; [done|]. intros H.
  apply not_elem_of_cons in H as [Hne Hl].
  case_decide; [done|]. by rewrite IH.
Qed.

Lemma filter_ne_notin (x : A) (l : list A) :
  x ∉ l → filter (λ y, y ≠ x) l = l.
Proof.
  induction l as [|y l IH]; [done|]. intros [Hne Hl]%not_elem_of_cons.
  rewrite filter_cons_True by naive_solver. by rewrite IH.
Qed.

Lemma list_remove1_filter (x : A) (l : list A) :
  NoDup l → list_remove1 x l = filter (λ y, y ≠ x) l.
Proof.
  induction 1 as [|y l Hy Hnd IH]; simpl; [done|].
  case_decide as Hxy.
  - subst y. rewrite filter_cons_False by naive_solver.
    by rewrite filter_ne_notin.
  - rewrite filter_cons_True by naive_solver. by rewrite IH.
Qed.

Lemma list_remove1_sublist x l : list_remove1 x l `sublist_of` l.
Proof.
  induction l as [|y l IH]; simpl; [done|].
  case_decide; [by apply sublist_cons|by apply sublist_skip].
Qed.

Lemma list_remove1_NoDup x l : NoDup l → NoDup (list_remove1 x l).
Proof. intros. eapply sublist_NoDup; [done|apply list_remove1_sublist]. Qed.

Lemma elem_of_list_remove1 x y l :
  NoDup l → y ∈ list_remove1 x l ↔ y ∈ l ∧ y ≠ x.
Proof.
  intros Hnd. rewrite list_remove1_filter by done.
  rewrite list_elem_of_filter. tauto.
Qed.
End pylist_facts.

(** ** Dictionaries *)

Module DictFacts.
Import Dict.
Section dict_facts.
Context {V : Type}.
Implicit Types (d : list (string * V)) (k : string) (v : V).

Lemma get_set_eq k v d : get k (set k v d) = Some v.
Proof.
  induction d as [|[k' v'] d IH]; simpl.
  - by rewrite decide_True.
  - case_decide; simpl; [by rewrite decide_True|by rewrite decide_False].
Qed.

Lemma get_set_ne k k' v d : k ≠ k' → get k' (set k v d) = get k' d.
Proof.
  intros Hne. induction d as [|[k1 v1] d IH]; simpl.
  - by rewrite decide_False.
  - case_decide; simpl; [subst k1; by rewrite !decide_False|].
    case_decide; [done|apply IH].
Qed.

Lemma get_set k k' v d :
  get k' (set k v d) = if decide (k = k') then Some v else get k' d.
Proof.
  case_decide; [subst; apply get_set_eq|by apply get_set_ne].
Qed.

Lemma mem_true k d : mem k d = true ↔ is_Some (get k d).
Proof. unfold mem. apply bool_decide_eq_true. Qed.

Lemma mem_false k d : mem k d = false ↔ get k d = None.
Proof.
  unfold mem. rewrite bool_decide_eq_false, <- eq_None_not_Some. done.
Qed.

Lemma elem_of_keys k d : k ∈ keys d ↔ is_Some (get k d).
Proof.
  unfold keys. induction d as [|[k' v'] d IH]; simpl.
  - rewrite elem_of_nil. split; [done|]. by intros [? ?].
  - rewrite elem_of_cons, IH. case_decide; [|tauto].
    split; [eauto|]. by left.
Qed.

Lemma keys_set_mem k v d : is_Some (get k d) → keys (set k v d) = keys d.
Proof.
  unfold keys. induction d as [|[k' v'] d IH]; simpl.
  - by intros [? ?].
  - intros H. destruct (decide (k = k')) as [->|Hne]; simpl; [done|].
    f_equal. by apply IH.
Qed.
End dict_facts.
End DictFacts.

(** ** The tag registry *)

Module TagFacts.
Import Tag DictFacts TagHistory.

Example scenario_comics :
  let '(t, published) :=
    run [AddTag "item1" "comics"; AddTag "item2" "comics"] init in
  get_tag "comics" t = ["item1"; "item2"]
  ∧ published = [("daemon_new_tag", ArgTags ["comics"])]
  ∧ snd (do_tag_changes t) = [("daemon_tag_change", ArgTag "comics")].
Proof. vm_compute. done. Qed.

Example scenario_readd :
  get_tag "T" (fst (run [AddTag "a" "T"; AddTag "b" "T";
                         RemoveTag "a" "T"; AddTag "a" "T"] init))
  = ["b"; "a"].
Proof. vm_compute. done. Qed.

Lemma py_in_true {A} `{EqDecision A} (x : A) l : py_in x l = true ↔ x ∈ l.
Proof. apply bool_decide_eq_true. Qed.

Lemma py_in_false {A} `{EqDecision A} (x : A) l : py_in x l = false ↔ x ∉ l.
Proof. apply bool_decide_eq_false. Qed.

Lemma ins_idem id l : ins id (ins id l) = ins id l.
Proof.
  unfold ins. destruct (py_in id l) eqn:E; rewrite ?E; [done|].
  assert (py_in id (l ++ [id]) = true) as ->; [|done].
  apply py_in_true, elem_of_app. right. by apply list_elem_of_singleton.
Qed.

Lemma ins_NoDup id l : NoDup l → NoDup (ins id l).
Proof.
  unfold ins. destruct (py_in id l) eqn:E; [done|]. intros Hnd.
  apply py_in_false in E. apply NoDup_app. split_and!; [done| |apply NoDup_singleton].
  intros x Hx ->%list_elem_of_singleton. done.
Qed.

Lemma elem_of_ins id x l : x ∈ ins id l ↔ x = id ∨ x ∈ l.
Proof.
  unfold ins. destruct (py_in id l) eqn:E.
  - apply py_in_true in E. split; [tauto|]. by intros [->|?].
  - rewrite elem_of_app, list_elem_of_singleton. tauto.
Qed.

(** *** The dirty set *)

Lemma tags_tag_changed tag t : tags (tag_changed tag t) = tags t.
Proof. unfold tag_changed. by destruct (py_in _ _). Qed.

Lemma extra_tags_tag_changed tag t : extra_tags (tag_changed tag t) = extra_tags t.
Proof. unfold tag_changed. by destruct (py_in _ _). Qed.

Lemma tag_items_tag_changed n tag t : tag_items n (tag_changed tag t) = tag_items n t.
Proof. unfold tag_items. by rewrite tags_tag_changed. Qed.

Lemma changed_tags_tag_changed tag t :
  changed_tags (tag_changed tag t) = ins tag (changed_tags t).
Proof. unfold tag_changed, ins. by destruct (py_in _ _). Qed.

(** *** The item list of one tag *)

Lemma get_tag_tag_items n t : get_tag n t = tag_items n t.
Proof.
  unfold get_tag, tag_items. destruct (py_in _ _) eqn:E; [done|].
  apply py_in_false in E. rewrite elem_of_keys in E.
  apply eq_None_not_Some in E. by rewrite E.
Qed.

Lemma tag_items_set n n' l t :
  tag_items n' (set_tags (Dict.set n l (tags t)) t)
  = if decide (n' = n) then l else tag_items n' t.
Proof.
  unfold tag_items. simpl. rewrite get_set.
  destruct (decide (n = n')), (decide (n' = n)); simpl; congruence.
Qed.

Lemma add_tag_create_items n n' st :
  tag_items n' (add_tag_create n st).1 = tag_items n' st.1.
Proof.
  unfold add_tag_create. destruct (Dict.mem n (tags st.1)) eqn:Em; simpl; [done|].
  apply mem_false in Em. rewrite tag_items_set. case_decide; [|done].
  subst n'. unfold tag_items. by rewrite Em.
Qed.

Lemma add_tag_append_items id n n' st :
  tag_items n' (add_tag_append id n st).1
  = if decide (n' = n) then ins id (tag_items n st.1) else tag_items n' st.1.
Proof.
  unfold add_tag_append, ins.
  destruct (py_in id (tag_items n st.1)) eqn:Ei; simpl.
  - by case_decide; subst.
  - by rewrite tag_items_tag_changed, tag_items_set.
Qed.

Lemma add_tag_body_items id n n' st :
  tag_items n' (add_tag_body id st n).1
  = if decide (n' = n) then ins id (tag_items n st.1) else tag_items n' st.1.
Proof.
  unfold add_tag_body. rewrite add_tag_append_items.
  by rewrite !add_tag_create_items.
Qed.

Lemma add_tag_body_extra id n st :
  extra_tags (add_tag_body id st n).1 = extra_tags st.1.
Proof.
  unfold add_tag_body, add_tag_append, add_tag_create.
  destruct (negb (Dict.mem n (tags st.1))); simpl;
  destruct (negb (py_in _ _)); simpl; by rewrite ?extra_tags_tag_changed.
Qed.

(** A loop whose body rewrites the list of the tag it visits *)
Lemma foldl_items {S} (view : S → string → list string) (body : S → string → S)
    (g : list string → list string) (P : list string → Prop) :
  (∀ s n n', view (body s n) n' = if decide (n' = n) then g (view s n) else view s n') →
  (∀ l, P l → P (g l)) →
  (∀ l, P l → g (g l) = g l) →
  ∀ ks s, (∀ n, P (view s n)) →
    ∀ n', view (foldl body s ks) n'
          = if decide (n' ∈ ks) then g (view s n') else view s n'.
Proof.
  intros Hbody HP Hidem ks. induction ks as [|k ks IH]; intros s Hs n'; cbn [foldl].
  - rewrite decide_False; [done|apply not_elem_of_nil].
  - rewrite IH.
    + rewrite !Hbody.
      destruct (decide (n' = k)) as [Heq|Hne]; destruct (decide (n' ∈ ks)) as [Hin|Hnin];
        destruct (decide (n' ∈ k :: ks)) as [Hc|Hc]; subst; try done.
      * by apply Hidem.
      * exfalso. apply Hc, list_elem_of_here.
      * exfalso. apply Hc, list_elem_of_here.
      * exfalso. by apply Hc, list_elem_of_further.
      * exfalso. by apply elem_of_cons in Hc as [?|?].
    + intros n. rewrite Hbody. case_decide; [by apply HP|done].
Qed.

Lemma add_tag_items id name n t :
  tag_items n (add_tag id name t).1
  = if decide (n ∈ alladded name t) then ins id (tag_items n t) else tag_items n t.
Proof.
  unfold add_tag.
  apply (foldl_items (λ st n, tag_items n st.1) (add_tag_body id) (ins id) (λ _, True)); try done.
  - intros. apply add_tag_body_items.
  - intros. apply ins_idem.
Qed.

Lemma foldl_extra {S} (ex : S → list (string * list string)) (body : S → string → S) :
  (∀ s n, ex (body s n) = ex s) → ∀ ks s, ex (foldl body s ks) = ex s.
Proof.
  intros Hbody ks. induction ks as [|k ks IH]; intros s; simpl; [done|].
  by rewrite IH, Hbody.
Qed.

Lemma add_tag_extra id name t : extra_tags (add_tag id name t).1 = extra_tags t.
Proof.
  unfold add_tag.
  apply (foldl_extra (λ st, extra_tags st.1) (add_tag_body id)).
  intros. apply add_tag_body_extra.
Qed.

Lemma remove_tag_items id name n t :
  tag_items n (remove_tag id name t)
  = if decide (n = name) then list_remove1 id (tag_items n t) else tag_items n t.
Proof.
  unfold remove_tag.
  destruct (Dict.mem name (tags t)) eqn:Em; simpl.
  - destruct (py_in id (tag_items name t)) eqn:Ei.
    + rewrite tag_items_tag_changed, tag_items_set. by case_decide; subst.
    + apply py_in_false in Ei. case_decide; [subst|done].
      by rewrite list_remove1_notin.
  - apply mem_false in Em. case_decide; [subst|done].
    unfold tag_items. by rewrite Em.
Qed.

Lemma remove_tag_extra id name t : extra_tags (remove_tag id name t) = extra_tags t.
Proof.
  unfold remove_tag. destruct (_ && _); [|done].
  by rewrite extra_tags_tag_changed.
Qed.

Lemma remove_id_body_items id n n' t :
  tag_items n' (remove_id_body id t n)
  = if decide (n' = n) then list_remove1 id (tag_items n t) else tag_items n' t.
Proof.
  unfold remove_id_body. destruct (py_in id (tag_items n t)) eqn:Ei.
  - by rewrite tag_items_tag_changed, tag_items_set.
  - apply py_in_false in Ei. case_decide; [subst|done].
    by rewrite list_remove1_notin.
Qed.

Lemma remove_id_body_extra id n t : extra_tags (remove_id_body id t n) = extra_tags t.
Proof.
  unfold remove_id_body. destruct (py_in _ _); [|done].
  by rewrite extra_tags_tag_changed.
Qed.

Lemma list_remove1_idem (id : string) l :
  NoDup l → list_remove1 id (list_remove1 id l) = list_remove1 id l.
Proof.
  intros Hnd. apply list_remove1_notin.
  rewrite elem_of_list_remove1 by done. tauto.
Qed.

Lemma remove_id_items id n t :
  (∀ n, NoDup (tag_items n t)) →
  tag_items n (remove_id id t) = list_remove1 id (tag_items n t).
Proof.
  intros Hnd. unfold remove_id.
  rewrite (foldl_items (λ t n, tag_items n t) (remove_id_body id)
             (list_remove1 id) NoDup); try done.
  - case_decide as Hin; [done|].
    rewrite elem_of_keys in Hin. apply eq_None_not_Some in Hin.
    unfold tag_items. by rewrite Hin.
  - intros. apply remove_id_body_items.
  - intros. by apply list_remove1_NoDup.
  - intros. by apply list_remove1_idem.
Qed.

Lemma remove_id_extra id t : extra_tags (remove_id id t) = extra_tags t.
Proof.
  unfold remove_id. apply (foldl_extra extra_tags (remove_id_body id)).
  intros. apply remove_id_body_extra.
Qed.

(** *** Histories *)

Lemma alladded_extra name t t' :
  extra_tags t = extra_tags t' → alladded name t = alladded name t'.
Proof. unfold alladded. by intros ->. Qed.

Lemma step_extra st o : extra_tags (step st o).1 = extra_tags st.1.
Proof.
  destruct st as [t p], o as [id name|id name|id]; simpl.
  - pose proof (add_tag_extra id name t) as He.
    by destruct (add_tag id name t).
  - apply remove_tag_extra.
  - apply remove_id_extra.
Qed.

Lemma step_items st o n :
  (∀ n, NoDup (tag_items n st.1)) →
  tag_items n (step st o).1 =
    match o with
    | AddTag id name =>
        if decide (n ∈ alladded name st.1) then ins id (tag_items n st.1)
        else tag_items n st.1
    | RemoveTag id name =>
        if decide (n = name) then list_remove1 id (tag_items n st.1)
        else tag_items n st.1
    | RemoveId id => list_remove1 id (tag_items n st.1)
    end.
Proof.
  intros Hnd. destruct st as [t p], o as [id name|id name|id]; simpl.
  - pose proof (add_tag_items id name n t) as He.
    by destruct (add_tag id name t).
  - apply remove_tag_items.
  - by apply remove_id_items.
Qed.

(** What is known of one tag at time [k] *)
Definition Inv (k : nat) (since : string → option nat) (l : list string) : Prop :=
  NoDup l
  ∧ (∀ id, id ∈ l ↔ is_Some (since id))
  ∧ ordered_by since l
  ∧ (∀ id a, since id = Some a → a < k).

Lemma ordered_by_ext since since' l :
  (∀ x, x ∈ l → since' x = since x) → ordered_by since l → ordered_by since' l.
Proof.
  unfold ordered_by. intros Hext Hs. induction Hs as [|x l Hs IH Hx]; [constructor|].
  constructor.
  - apply IH. intros. apply Hext. by apply list_elem_of_further.
  - apply Forall_forall. intros y Hy. rewrite Forall_forall in Hx.
    rewrite !Hext; [by apply Hx|by apply list_elem_of_further|apply list_elem_of_here].
Qed.

Lemma ordered_by_sublist since l l' :
  l' `sublist_of` l → ordered_by since l → ordered_by since l'.
Proof.
  unfold ordered_by. intros Hsub Hs. revert l' Hsub.
  induction Hs as [|x l Hs IH Hx]; intros l' Hsub.
  - apply sublist_nil_r in Hsub as ->. constructor.
  - apply sublist_cons_r in Hsub as [Hsub|(l'' & -> & Hsub)]; [by apply IH|].
    constructor; [by apply IH|].
    eapply Forall_forall. intros y Hy. rewrite Forall_forall in Hx.
    apply Hx. by eapply elem_of_sublist.
Qed.

Lemma Inv_ext k since since' l :
  (∀ x, since' x = since x) → Inv k since l → Inv k since' l.
Proof.
  intros Hext (Hnd & Hin & Hord & Hlt). split_and!; [done| | |].
  - intros id. by rewrite Hext.
  - eapply ordered_by_ext; [|done]. auto.
  - intros id a. rewrite Hext. apply Hlt.
Qed.

Lemma Inv_nop k since l : Inv k since l → Inv (S k) since l.
Proof.
  intros (Hnd & Hin & Hord & Hlt). split_and!; try done.
  intros id a Ha. specialize (Hlt _ _ Ha). lia.
Qed.

Lemma Inv_ins k since l id :
  Inv k since l →
  Inv (S k)
      (λ x, if decide (x = id)
            then match since x with Some a => Some a | None => Some k end
            else since x)
      (ins id l).
Proof.
  intros (Hnd & Hin & Hord & Hlt). unfold ins.
  destruct (py_in id l) eqn:Ei.
  - apply py_in_true in Ei. pose proof Ei as [a Ha]%Hin.
    apply (Inv_ext _ since); [|by apply Inv_nop].
    intros x. case_decide; [subst; by rewrite Ha|done].
  - apply py_in_false in Ei.
    assert (since id = None) as Hid.
    { apply eq_None_not_Some. by rewrite <- Hin. }
    split_and!.
    + apply NoDup_app. split_and!; [done| |apply NoDup_singleton].
      by intros x Hx ->%list_elem_of_singleton.
    + intros x. rewrite elem_of_app, list_elem_of_singleton.
      case_decide; [subst; rewrite Hid; split; eauto|].
      rewrite Hin. tauto.
    + unfold ordered_by. apply StronglySorted_app. split_and!.
      * intros x y Hx ->%list_elem_of_singleton.
        rewrite decide_False by (by intros ->). rewrite decide_True by done.
        rewrite Hid. pose proof Hx as [a Ha]%Hin. rewrite Ha. simpl.
        by eapply Hlt.
      * eapply (ordered_by_ext since); [|done].
        intros x Hx. rewrite decide_False; [done|by intros ->].
      * repeat constructor.
    + intros x a. case_decide; [subst; rewrite Hid; intros [= <-]; lia|].
      intros Ha. specialize (Hlt _ _ Ha). lia.
Qed.

Lemma Inv_del k since l id :
  Inv k since l →
  Inv (S k) (λ x, if decide (x = id) then None else since x) (list_remove1 id l).
Proof.
  intros (Hnd & Hin & Hord & Hlt). split_and!.
  - by apply list_remove1_NoDup.
  - intros x. rewrite elem_of_list_remove1 by done.
    case_decide; [subst; split; [tauto|by intros [? ?]]|].
    rewrite Hin. tauto.
  - eapply (ordered_by_ext since).
    + intros x [_ Hx]%elem_of_list_remove1; [|done]. by rewrite decide_False.
    + eapply ordered_by_sublist; [apply list_remove1_sublist|done].
  - intros x a. case_decide; [done|]. intros Ha. specialize (Hlt _ _ Ha). lia.
Qed.

Lemma step_Inv t0 k st o (since : string → string → option nat) :
  extra_tags st.1 = extra_tags t0 →
  (∀ n, Inv k (since n) (tag_items n st.1)) →
  ∀ n, Inv (S k) (λ id, tick t0 n id o k (since n id)) (tag_items n (step st o).1).
Proof.
  intros Hex HI n.
  rewrite step_items by (intros m; apply (HI m)).
  specialize (HI n). unfold tick.
  destruct o as [id name|id name|id]; simpl.
  - rewrite (alladded_extra name st.1 t0) by done.
    destruct (decide (n ∈ alladded name t0)) as [Hn|Hn].
    + eapply Inv_ext; [|apply (Inv_ins k (since n) _ id); exact HI].
      intros x. simpl. destruct (decide (x = id)) as [->|Hne].
      * by rewrite bool_decide_eq_true_2.
      * rewrite bool_decide_eq_false_2; [done|]. by intros [? _].
    + eapply Inv_ext; [|apply (Inv_nop k (since n)); exact HI].
      intros x. simpl. rewrite bool_decide_eq_false_2; [done|]. by intros [_ ?].
  - destruct (decide (n = name)) as [Heq|Hn]; [subst name|].
    + eapply Inv_ext; [|apply (Inv_del k (since n) _ id); exact HI].
      intros x. simpl. destruct (decide (x = id)) as [->|Hne].
      * by rewrite bool_decide_eq_true_2.
      * rewrite bool_decide_eq_false_2; [done|]. by intros [? _].
    + eapply Inv_ext; [|apply (Inv_nop k (since n)); exact HI].
      intros x. simpl. rewrite bool_decide_eq_false_2; [done|]. by intros [_ ?].
  - eapply Inv_ext; [|apply (Inv_del k (since n) _ id); exact HI].
    intros x. simpl. destruct (decide (x = id)) as [->|Hne].
    + by rewrite bool_decide_eq_true_2.
    + by rewrite bool_decide_eq_false_2.
Qed.

Lemma foldl_step_Inv t0 ops : ∀ k st (since : string → string → option nat),
  extra_tags st.1 = extra_tags t0 →
  (∀ n, Inv k (since n) (tag_items n st.1)) →
  ∀ n, Inv (k + length ops)
           (λ id, present_since t0 n id ops k (since n id))
           (tag_items n (foldl step st ops).1).
Proof.
  induction ops as [|o ops IH]; intros k st since Hex HI n; simpl.
  - rewrite Nat.add_0_r. apply HI.
  - replace (k + S (length ops)) with (S k + length ops) by lia.
    apply (IH (S k) (step st o) (λ n id, tick t0 n id o k (since n id))).
    + by rewrite step_extra.
    + by apply step_Inv.
Qed.

Lemma Inv_empty : Inv 0 (λ _, None) [].
Proof.
  split_and!; [constructor| |constructor|done].
  intros id. split; [by intros ?%elem_of_nil|by intros [? ?]].
Qed.


(** C1, as stated, fails: after add a, add b, remove a, add a the tag holds
    [b; a], while a was first inserted before b. *)
Lemma c1_first_insertion_order_fails :
  ¬ first_insertion_order init
      [AddTag "a" "T"; AddTag "b" "T"; RemoveTag "a" "T"; AddTag "a" "T"] "T".
Proof.
  unfold first_insertion_order. intros [_ Hord].
  assert (get_tag "T" (run [AddTag "a" "T"; AddTag "b" "T";
                            RemoveTag "a" "T"; AddTag "a" "T"] init).1 = ["b"; "a"])
    as Hl by (vm_compute; done).
  rewrite Hl in Hord. unfold ordered_by in Hord.
  apply StronglySorted_cons in Hord as [Hba _].
  apply Forall_cons in Hba as [Hba _].
  vm_compute in Hba. lia.
Qed.

(** C1, as the code has it. After any sequence of [add_tag], [remove_tag]
    and [remove_id] calls on a registry that starts without tags, the item
    list of every tag holds no id twice, holds exactly the ids that have a
    current insertion time, and lists them in the order of those times: the
    time of an id is the position of the [add_tag] that found it absent and
    appended it, so an id that was removed and added again stands at the
    end, and an [add_tag] of an id that is present moves nothing. *)
Theorem c1_tag_items_unique_in_last_insertion_order
    (c : list string) (tr : list (string * transform)) (ex : list (string * list string))
    (ops : list op) (n : string) :
  let t0 := mkTags [] c tr ex in
  let l := get_tag n (run ops t0).1 in
  NoDup l
  ∧ (∀ id, id ∈ l ↔ is_Some (last_inserted t0 ops n id))
  ∧ ordered_by (last_inserted t0 ops n) l.
Proof.
  intros t0 l. subst l. rewrite get_tag_tag_items. unfold run.
  pose proof (foldl_step_Inv t0 ops 0 (t0, []) (λ _ _, None) eq_refl) as HI.
  destruct (HI (λ _, Inv_empty) n) as (Hnd & Hin & Hord & _).
  done.
Qed.

(** *** The dirty list over a batch *)

(** Same registry, and a dirty list that is included *)
Definition sim (t1 t2 : CantoTags) : Prop :=
  tags t1 = tags t2 ∧ extra_tags t1 = extra_tags t2
  ∧ ∀ x, x ∈ changed_tags t1 → x ∈ changed_tags t2.

Lemma sim_tag_changed tag t1 t2 : sim t1 t2 → sim (tag_changed tag t1) (tag_changed tag t2).
Proof.
  intros (Ht & Hx & Hc). split_and!.
  - by rewrite !tags_tag_changed.
  - by rewrite !extra_tags_tag_changed.
  - intros x. rewrite !changed_tags_tag_changed, !elem_of_ins. intros [?|?]; auto.
Qed.

Lemma sim_set_tags d t1 t2 : sim t1 t2 → sim (set_tags d t1) (set_tags d t2).
Proof. intros (Ht & Hx & Hc). by split_and!. Qed.

Lemma sim_tag_items n t1 t2 : sim t1 t2 → tag_items n t1 = tag_items n t2.
Proof. intros (Ht & _). unfold tag_items. by rewrite Ht. Qed.

Lemma sim_add_tag_body id n st1 st2 :
  sim st1.1 st2.1 → sim (add_tag_body id st1 n).1 (add_tag_body id st2 n).1.
Proof.
  intros Hs. unfold add_tag_body.
  assert (sim (add_tag_create n st1).1 (add_tag_create n st2).1) as Hs'.
  { unfold add_tag_create. destruct Hs as (Ht & Hx & Hc). rewrite Ht.
    destruct (negb (Dict.mem n (tags st2.1))); simpl; by split_and!. }
  revert Hs'. generalize (add_tag_create n st1) (add_tag_create n st2).
  intros u1 u2 Hu. unfold add_tag_append.
  rewrite (sim_tag_items n _ _ Hu). destruct Hu as (Ht & Hx & Hc).
  destruct (negb (py_in id (tag_items n u2.1))); simpl; [|by split_and!].
  rewrite Ht. apply sim_tag_changed. by split_and!.
Qed.

Lemma sim_foldl {S} (proj : S → CantoTags) (body : S → string → S) :
  (∀ s1 s2 n, sim (proj s1) (proj s2) → sim (proj (body s1 n)) (proj (body s2 n))) →
  ∀ ks s1 s2, sim (proj s1) (proj s2) → sim (proj (foldl body s1 ks)) (proj (foldl body s2 ks)).
Proof.
  intros Hbody ks. induction ks as [|k ks IH]; intros s1 s2 Hs; simpl; [done|].
  by apply IH, Hbody.
Qed.

Lemma sim_add_tag id name t1 t2 :
  sim t1 t2 → sim (add_tag id name t1).1 (add_tag id name t2).1.
Proof.
  intros Hs. unfold add_tag.
  rewrite (alladded_extra name t1 t2) by apply Hs.
  apply (sim_foldl fst (add_tag_body id)); [|done].
  intros. by apply sim_add_tag_body.
Qed.

Lemma sim_remove_tag id name t1 t2 :
  sim t1 t2 → sim (remove_tag id name t1) (remove_tag id name t2).
Proof.
  intros Hs. unfold remove_tag. rewrite (sim_tag_items name _ _ Hs).
  pose proof Hs as (Ht & Hx & Hc). rewrite Ht.
  destruct (_ && _); [|done]. by apply sim_tag_changed, sim_set_tags.
Qed.

Lemma sim_remove_id_body id n t1 t2 :
  sim t1 t2 → sim (remove_id_body id t1 n) (remove_id_body id t2 n).
Proof.
  intros Hs. unfold remove_id_body. rewrite (sim_tag_items n _ _ Hs).
  pose proof Hs as (Ht & Hx & Hc). rewrite Ht.
  destruct (py_in _ _); [|done]. by apply sim_tag_changed, sim_set_tags.
Qed.

Lemma sim_remove_id id t1 t2 : sim t1 t2 → sim (remove_id id t1) (remove_id id t2).
Proof.
  intros Hs. unfold remove_id. pose proof Hs as (Ht & _). rewrite Ht.
  apply (sim_foldl (λ t, t) (remove_id_body id)); [|done].
  intros. by apply sim_remove_id_body.
Qed.

Lemma sim_reset t1 t2 : sim t1 t2 → sim (reset t1) (reset t2).
Proof.
  intros (Ht & Hx & Hc). unfold reset. simpl. rewrite Ht.
  apply sim_set_tags.
  apply (sim_foldl (λ t, t) (λ t tag, tag_changed tag t)).
  - intros. by apply sim_tag_changed.
  - by split_and!.
Qed.

Lemma sim_mutate st1 st2 m : sim st1.1 st2.1 → sim (mutate st1 m).1 (mutate st2 m).1.
Proof.
  intros Hs. destruct st1 as [t1 p1], st2 as [t2 p2], m as [[id name|id name|id]| |tag extras];
    simpl in *.
  - pose proof (sim_add_tag id name t1 t2 Hs) as H.
    by destruct (add_tag id name t1), (add_tag id name t2).
  - by apply sim_remove_tag.
  - by apply sim_remove_id.
  - by apply sim_reset.
  - destruct Hs as (Ht & Hx & Hc). split_and!; simpl; [done| |done]. by rewrite Hx.
Qed.

Lemma sim_refl t : sim t t.
Proof. by split_and!. Qed.

Lemma sim_cleared t : sim (set_changed_tags [] t) t.
Proof. split_and!; [done|done|]. by intros x ?%elem_of_nil. Qed.

(** A mutation keeps what is dirty. *)
Definition grows (t t' : CantoTags) : Prop :=
  (NoDup (changed_tags t) → NoDup (changed_tags t'))
  ∧ ∀ x, x ∈ changed_tags t → x ∈ changed_tags t'.

Lemma grows_refl t : grows t t.
Proof. by split. Qed.

Lemma grows_trans t1 t2 t3 : grows t1 t2 → grows t2 t3 → grows t1 t3.
Proof. intros [? ?] [? ?]. split; auto. Qed.

Lemma grows_tag_changed tag t : grows t (tag_changed tag t).
Proof.
  split; rewrite changed_tags_tag_changed.
  - apply ins_NoDup.
  - intros x. rewrite elem_of_ins. auto.
Qed.

Lemma grows_set_tags d t t' : grows t t' → grows (set_tags d t) t'.
Proof. done. Qed.

Lemma grows_foldl {S} (proj : S → CantoTags) (body : S → string → S) :
  (∀ s n, grows (proj s) (proj (body s n))) →
  ∀ ks s, grows (proj s) (proj (foldl body s ks)).
Proof.
  intros Hbody ks. induction ks as [|k ks IH]; intros s; simpl; [apply grows_refl|].
  eapply grows_trans; [apply Hbody|apply IH].
Qed.

Lemma grows_add_tag_body id st n : grows st.1 (add_tag_body id st n).1.
Proof.
  unfold add_tag_body, add_tag_append.
  assert (grows st.1 (add_tag_create n st).1) as Hc.
  { unfold add_tag_create. destruct (negb _); simpl; [|apply grows_refl]. by split. }
  destruct (negb (py_in _ _)); simpl; [|done].
  eapply grows_trans; [exact Hc|].
  eapply grows_trans; [|apply grows_tag_changed]. by split.
Qed.

Lemma grows_mutate st m : grows st.1 (mutate st m).1.
Proof.
  destruct st as [t p], m as [[id name|id name|id]| |tag extras]; simpl.
  - pose proof (grows_foldl fst (add_tag_body id) (grows_add_tag_body id)
                  (alladded name t) (t, [])) as H.
    unfold add_tag. by destruct (foldl _ _ _).
  - unfold remove_tag. destruct (_ && _); [|apply grows_refl].
    eapply grows_trans; [|apply grows_tag_changed]. by split.
  - unfold remove_id. apply (grows_foldl (λ t, t) (remove_id_body id)).
    intros s n. unfold remove_id_body. destruct (py_in _ _); [|apply grows_refl].
    eapply grows_trans; [|apply grows_tag_changed]. by split.
  - unfold reset.
    pose proof (grows_foldl (λ t, t) (λ t tag, tag_changed tag t)
                  (λ s n, grows_tag_changed n s) (Dict.keys (tags t))
                  (mkTags (tags t) (changed_tags t) [] [])) as H.
    destruct H as [H1 H2]. split; simpl; auto.
  - by split.
Qed.

Lemma grows_batch batch : ∀ st, grows st.1 (foldl mutate st batch).1.
Proof.
  induction batch as [|m batch IH]; intros st; simpl; [apply grows_refl|].
  eapply grows_trans; [apply grows_mutate|apply IH].
Qed.

Lemma marks_dirty_changed tag st m :
  marks_dirty tag st.1 m = true → tag ∈ changed_tags (mutate st m).1.
Proof.
  unfold marks_dirty. intros Hm%py_in_true.
  pose proof (sim_mutate (set_changed_tags [] st.1, []) st m (sim_cleared st.1)) as (_ & _ & Hc).
  by apply Hc.
Qed.

Lemma dirty_count_changed tag batch : ∀ st,
  (1 ≤ dirty_count tag st batch)%nat → tag ∈ changed_tags (foldl mutate st batch).1.
Proof.
  induction batch as [|m batch IH]; intros st; simpl; [lia|].
  destruct (marks_dirty tag st.1 m) eqn:Em.
  - intros _. apply (grows_batch batch (mutate st m)).
    by apply marks_dirty_changed.
  - simpl. apply IH.
Qed.

Lemma foldl_snoc_fmap {A B} (f : A → B) (l : list A) : ∀ acc,
  foldl (λ acc x, acc ++ [f x]) acc l = acc ++ (f <$> l).
Proof.
  induction l as [|x l IH]; intros acc; simpl.
  - by rewrite app_nil_r.
  - rewrite IH. by rewrite <- app_assoc.
Qed.

Lemma do_tag_changes_published t :
  (do_tag_changes t).2 = (λ tag, ("daemon_tag_change", ArgTag tag)) <$> changed_tags t.
Proof.
  unfold do_tag_changes. simpl.
  by rewrite (foldl_snoc_fmap (λ tag, ("daemon_tag_change", ArgTag tag))).
Qed.


Lemma times_tag_change tag l :
  times ("daemon_tag_change", ArgTag tag)
        ((λ tag, ("daemon_tag_change", ArgTag tag)) <$> l)
  = length (filter (λ x, x = tag) l).
Proof.
  unfold times. induction l as [|x l IH]; [done|].
  rewrite fmap_cons, !filter_cons.
  destruct (decide (x = tag)) as [->|Hne].
  - rewrite decide_True by done. cbn [length]. by rewrite IH.
  - rewrite decide_False; [done|]. intros [= ?]. done.
Qed.

Lemma length_filter_eq_NoDup (x : string) l :
  NoDup l → length (filter (λ y, y = x) l) = if decide (x ∈ l) then 1 else 0.
Proof.
  induction 1 as [|y l Hy Hnd IH]; [done|].
  rewrite filter_cons.
  destruct (decide (y = x)) as [->|Hne]; cbn [length]; rewrite IH.
  - rewrite decide_False by done. rewrite decide_True; [done|apply list_elem_of_here].
  - destruct (decide (x ∈ l)) as [Hin|Hnin].
    + rewrite decide_True; [done|by apply list_elem_of_further].
    + rewrite decide_False; [done|]. by intros [?|?]%elem_of_cons.
Qed.

(** C2. A batch starts right after a run of [do_tag_changes]. If at least
    one mutation of the batch marks the tag dirty, the next run of
    [do_tag_changes] makes exactly one ["daemon_tag_change"] hook call for
    that tag, and leaves the dirty list empty. *)
Theorem c2_flush_publishes_once (t : CantoTags) (batch : list mutation) (tag : string) :
  let start := ((do_tag_changes t).1, []) in
  let t' := (foldl mutate start batch).1 in
  (1 ≤ dirty_count tag start batch)%nat →
  times ("daemon_tag_change", ArgTag tag) (do_tag_changes t').2 = 1
  ∧ changed_tags (do_tag_changes t').1 = [].
Proof.
  intros start t' HK. split; [|done].
  rewrite do_tag_changes_published, times_tag_change.
  pose proof (grows_batch batch start) as [Hnd _].
  rewrite length_filter_eq_NoDup by (apply Hnd; constructor).
  rewrite decide_True; [done|]. by apply dirty_count_changed.
Qed.

(** C2 on a batch of three mutations of the tag "comics" *)
Lemma c2_flush_publishes_once_witness :
  let batch := [Op (AddTag "item1" "comics"); Op (AddTag "item2" "comics");
                Op (RemoveTag "item1" "comics")] in
  dirty_count "comics" ((do_tag_changes init).1, []) batch = 3
  ∧ times ("daemon_tag_change", ArgTag "comics")
          (do_tag_changes (foldl mutate ((do_tag_changes init).1, []) batch).1).2 = 1
  ∧ changed_tags (do_tag_changes (foldl mutate ((do_tag_changes init).1, []) batch).1).1 = [].
Proof.
  intros batch. split; [by vm_compute|].
  apply (c2_flush_publishes_once init batch "comics"). vm_compute. lia.
Defined.

Lemma add_tag_body_noop id n st :
  Dict.mem n (tags st.1) = true → id ∈ tag_items n st.1 → add_tag_body id st n = st.
Proof.
  intros Hm Hi. unfold add_tag_body, add_tag_create. rewrite Hm. simpl.
  unfold add_tag_append. apply py_in_true in Hi. by rewrite Hi.
Qed.

(** C10. When every name [add_tag] visits (the tag and its extra tags) is
    a tag of the registry that already holds the id, [add_tag] returns the
    registry as it was and calls no hook: no item list changes, the dirty
    list is the same, and the next [do_tag_changes] does what it would have
    done without the call. *)
Theorem c10_add_tag_present_is_noop (id name : string) (t : CantoTags) :
  (∀ n, n ∈ alladded name t → Dict.mem n (tags t) = true ∧ id ∈ get_tag n t) →
  add_tag id name t = (t, [])
  ∧ changed_tags (add_tag id name t).1 = changed_tags t
  ∧ do_tag_changes (add_tag id name t).1 = do_tag_changes t.
Proof.
  intros Hall.
  assert (add_tag id name t = (t, [])) as ->; [|done].
  unfold add_tag. revert Hall. generalize (alladded name t). intros ks.
  induction ks as [|k ks IH]; intros Hall; simpl; [done|].
  destruct (Hall k (list_elem_of_here _ _)) as [Hm Hi].
  rewrite get_tag_tag_items in Hi.
  rewrite add_tag_body_noop by done.
  apply IH. intros n Hn. apply Hall. by apply list_elem_of_further.
Qed.

(** C10 on a tag with one extra tag, both holding the id *)
Lemma c10_add_tag_present_is_noop_witness :
  let t := (run [AddTag "item1" "xkcd"] (set_extra_tags "xkcd" ["comics"] init)).1 in
  alladded "xkcd" t = ["xkcd"; "comics"]
  ∧ add_tag "item1" "xkcd" t = (t, [])
  ∧ changed_tags (add_tag "item1" "xkcd" t).1 = changed_tags t
  ∧ do_tag_changes (add_tag "item1" "xkcd" t).1 = do_tag_changes t.
Proof.
  intros t. split; [by vm_compute|].
  apply (c10_add_tag_present_is_noop "item1" "xkcd" t).
  intros n Hn. assert (n = "xkcd" ∨ n = "comics") as [-> | ->].
  { vm_compute in Hn. apply elem_of_cons in Hn as [?|Hn]; [by left|].
    apply elem_of_cons in Hn as [?|Hn]; [by right|]. by apply elem_of_nil in Hn. }
  - split; [by vm_compute|]. vm_compute. apply list_elem_of_here.
  - split; [by vm_compute|]. vm_compute. apply list_elem_of_here.
Defined.

End TagFacts.

(** ** The protection registry and the dispatcher *)

Module ProtectFacts.
Import Protect.

Lemma protected_true id p :
  protected id p = true ↔ ∃ key ids, p !! key = Some ids ∧ id ∈ ids.
Proof. unfold protected. rewrite bool_decide_eq_true. done. Qed.

Lemma protected_false id p :
  protected id p = false ↔ ∀ key ids, p !! key = Some ids → id ∉ ids.
Proof.
  rewrite <- not_true_iff_false, protected_true. split.
  - intros Hn key ids Hk Hin. apply Hn. eauto.
  - intros Hall (key & ids & Hk & Hin). by eapply Hall.
Qed.

Lemma protect_lookup key ids p :
  protect key ids p !! key = Some (default ∅ (p !! key) ∪ list_to_set ids).
Proof. unfold protect. apply lookup_insert_eq. Qed.

Lemma unprotect_lookup key p : unprotect key p !! key = None.
Proof. apply lookup_delete_eq. Qed.

End ProtectFacts.

Module BackendFacts.
Import Feed Backend ProtectFacts.

Section remove_while_facts.
Context {A : Type} `{EqDecision A}.

Lemma remove_while_notin (x : A) (l : list A) : x ∉ remove_while x l.
Proof. funelim (remove_while x l); [done|]. done. Qed.

Lemma remove_while_sublist (x : A) (l : list A) : remove_while x l `sublist_of` l.
Proof.
  funelim (remove_while x l); [|done].
  etrans; [done|]. apply list_remove1_sublist.
Qed.

End remove_while_facts.

Section handler_facts.
Context {C : Type} `{Collaborators C}.

Lemma for_acc_preserves {X S} (P : World C → Prop) (l : list X)
    (body : S → X → M S) :
  (∀ s x w, P w → P (body s x w).2) →
  ∀ s w, P w → P (for_acc l body s w).2.
Proof.
  intros Hbody. induction l as [|x l IH]; intros s w Hw; simpl; [done|].
  unfold bind. specialize (Hbody s x w Hw).
  destruct (body s x w) as [[s'|e] w']; simpl in *; [by apply IH|done].
Qed.

Lemma check_dead_feeds_frame (w : World C) :
  watches (check_dead_feeds w).2 = watches w
  ∧ protection (check_dead_feeds w).2 = protection w.
Proof.
  unfold check_dead_feeds, bind, get. simpl.
  apply (for_acc_preserves (λ w', watches w' = watches w ∧ protection w' = protection w));
    [|done].
  intros [] url w1 [Hw Hp]. unfold check_dead_feeds_body, bind, get.
  destruct (dead_feeds w1 !! url) as [f|]; simpl; [|done].
  destruct (still_committed _ _); simpl; done.
Qed.

(** C6. From any state of the watch registry, after [on_kill_socket] has
    run for a socket, the socket is in none of the config, new-tag and
    del-tag watch lists, in none of the per-tag watch lists, and the
    protection registry has no entry under [(socket, "auto")]. *)
Theorem c6_kill_socket_unwatches (socket : nat) (w : World C) :
  let w' := (on_kill_socket socket w).2 in
  (socket ∉ config (watches w'))
  ∧ (socket ∉ new_tags (watches w'))
  ∧ (socket ∉ del_tags (watches w'))
  ∧ (∀ tag sockets, tags (watches w') !! tag = Some sockets → socket ∉ sockets)
  ∧ protection w' !! (socket, "auto") = None.
Proof.
  intros w'. subst w'. unfold on_kill_socket, bind, modify. simpl.
  match goal with |- context [check_dead_feeds ?w0] =>
    destruct (check_dead_feeds_frame w0) as [-> ->] end.
  simpl. split_and!; try apply remove_while_notin.
  - intros tag sockets. rewrite lookup_fmap.
    destruct (tags (watches w) !! tag); simpl; [|done].
    intros [= <-]. apply remove_while_notin.
  - apply unprotect_lookup.
Qed.

(** *** Dead feeds *)

Lemma still_committed_true p its :
  still_committed p its = true ↔ ∃ it, it ∈ its ∧ Protect.protected (item_id it) p = true.
Proof.
  induction its as [|it its IH]; simpl.
  - split; [done|]. by intros (it & Hin%elem_of_nil & _).
  - destruct (Protect.protected (item_id it) p) eqn:Ep.
    + split; [|done]. intros _. exists it. split; [apply list_elem_of_here|done].
    + rewrite IH. split.
      * intros (it' & Hin & Hp). exists it'. split; [by apply list_elem_of_further|done].
      * intros (it' & [->|Hin]%elem_of_cons & Hp); [congruence|]. eauto.
Qed.

Lemma still_committed_false p its :
  still_committed p its = false ↔ ∀ it, it ∈ its → Protect.protected (item_id it) p = false.
Proof.
  rewrite <- not_true_iff_false, still_committed_true. split.
  - intros Hn it Hin. apply not_true_iff_false. intros Hp. apply Hn. eauto.
  - intros Hall (it & Hin & Hp). rewrite (Hall it Hin) in Hp. done.
Qed.

(** What the check leaves of a registry of dead feeds *)
Definition kept (p : gmap (nat * string) (gset string)) (f : feed) : option feed :=
  if still_committed p (items f) then Some f else None.

Lemma for_each_cons {X} (x : X) (l : list X) (body : X → M unit) (w : World C) :
  for_each (x :: l) body w =
    match body x w with
    | (Ok _, w') => for_each l body w'
    | (Raise e, w') => (Raise e, w')
    end.
Proof.
  unfold for_each. simpl. unfold bind.
  by destruct (body x w) as [[[]|e] w'].
Qed.

Lemma check_dead_feeds_body_kept url f (w : World C) :
  dead_feeds w !! url = Some f →
  still_committed (protection w) (items f) = true →
  check_dead_feeds_body url w
  = (Ok tt, emit (Log "debug" ("Dead feed " ++ URL f ++ " still committed.")%string) w).
Proof. intros Hf Hc. unfold check_dead_feeds_body, bind, get. by rewrite Hf, Hc. Qed.

Lemma check_dead_feeds_body_dead url f (w : World C) :
  dead_feeds w !! url = Some f →
  still_committed (protection w) (items f) = false →
  check_dead_feeds_body url w
  = (Ok tt, set_dead_feeds (really_dead f (dead_feeds w)) w).
Proof. intros Hf Hc. unfold check_dead_feeds_body, bind, get. by rewrite Hf, Hc. Qed.

Lemma check_loop (urls : list string) : ∀ w : World C,
  NoDup urls →
  (∀ url, url ∈ urls → is_Some (dead_feeds w !! url)) →
  (∀ url f, dead_feeds w !! url = Some f → URL f = url) →
  (for_each urls check_dead_feeds_body w).1 = Ok tt
  ∧ protection (for_each urls check_dead_feeds_body w).2 = protection w
  ∧ ∀ url, dead_feeds (for_each urls check_dead_feeds_body w).2 !! url =
           if decide (url ∈ urls) then dead_feeds w !! url ≫= kept (protection w)
           else dead_feeds w !! url.
Proof.
  induction urls as [|u urls IH]; intros w Hnd Hin Hwf.
  - split_and!; [done|done|]. intros url.
    rewrite decide_False; [done|apply not_elem_of_nil].
  - apply NoDup_cons in Hnd as [Hu Hnd].
    destruct (Hin u (list_elem_of_here _ _)) as [f Hf].
    rewrite for_each_cons.
    destruct (still_committed (protection w) (items f)) eqn:Ec.
    + rewrite (check_dead_feeds_body_kept u f) by done.
      set (w1 := emit _ w).
      destruct (IH w1 Hnd) as (Hr & Hp & Hd).
      { intros url Hurl. apply Hin. by apply list_elem_of_further. }
      { done. }
      split_and!; [done|done|].
      intros url. rewrite Hd. simpl.
      destruct (decide (url = u)) as [->|Hne].
      * rewrite decide_False by done. rewrite decide_True by apply list_elem_of_here.
        rewrite Hf. simpl. unfold kept. by rewrite Ec.
      * destruct (decide (url ∈ urls)) as [Hi|Hi].
        -- by rewrite decide_True by by apply list_elem_of_further.
        -- rewrite decide_False; [done|]. by intros [?|?]%elem_of_cons.
    + rewrite (check_dead_feeds_body_dead u f) by done.
      set (w1 := set_dead_feeds _ w).
      assert (dead_feeds w1 = delete u (dead_feeds w)) as Hw1.
      { unfold w1, really_dead. simpl. by rewrite (Hwf u f Hf). }
      destruct (IH w1 Hnd) as (Hr & Hp & Hd).
      { intros url Hurl. rewrite Hw1, lookup_delete_ne by (by intros ->).
        apply Hin. by apply list_elem_of_further. }
      { intros url g. rewrite Hw1. intros [_ Hg]%lookup_delete_Some. by apply Hwf. }
      split_and!; [done|done|].
      intros url. rewrite Hd, Hw1. simpl.
      destruct (decide (url = u)) as [->|Hne].
      * rewrite decide_False by done. rewrite decide_True by apply list_elem_of_here.
        rewrite Hf. simpl. unfold kept. rewrite Ec. apply lookup_delete_eq.
      * rewrite lookup_delete_ne by done.
        destruct (decide (url ∈ urls)) as [Hi|Hi].
        -- by rewrite decide_True by by apply list_elem_of_further.
        -- rewrite decide_False; [done|]. by intros [?|?]%elem_of_cons.
Qed.

Lemma check_dead_feeds_unfold (w : World C) :
  check_dead_feeds w = for_each (map_to_list (dead_feeds w)).*1 check_dead_feeds_body w.
Proof. done. Qed.

(** C5. On a registry of dead feeds keyed by the URL of each feed,
    [check_dead_feeds] returns, and for every feed that was dead before the
    check: it is gone from the registry afterwards if and only if none of
    its items is protected, and it is still there if an item is protected. *)
Theorem c5_dead_feed_discarded_iff_unprotected (w : World C) :
  (∀ url f, dead_feeds w !! url = Some f → URL f = url) →
  let r := check_dead_feeds w in
  r.1 = Ok tt
  ∧ ∀ url f, dead_feeds w !! url = Some f →
      (dead_feeds r.2 !! url = None ↔
         ∀ it, it ∈ items f → Protect.protected (item_id it) (protection w) = false)
      ∧ ((∃ it, it ∈ items f ∧ Protect.protected (item_id it) (protection w) = true) →
         dead_feeds r.2 !! url = Some f).
Proof.
  intros Hwf r. subst r. rewrite check_dead_feeds_unfold.
  destruct (check_loop (map_to_list (dead_feeds w)).*1 w) as (Hr & _ & Hd); [| |done|].
  { apply NoDup_fst_map_to_list. }
  { intros url [f Hf]%list_elem_of_fmap. destruct Hf as [-> Hf]. destruct f as [k f].
    apply elem_of_map_to_list in Hf. simpl. eauto. }
  split; [done|]. intros url f Hf.
  assert (url ∈ (map_to_list (dead_feeds w)).*1) as Hin.
  { apply list_elem_of_fmap. exists (url, f). split; [done|]. by apply elem_of_map_to_list. }
  rewrite Hd, decide_True, Hf by done. simpl. unfold kept.
  destruct (still_committed (protection w) (items f)) eqn:Ec.
  - split; [|done]. split; [done|]. intros Hall.
    apply still_committed_false in Hall. congruence.
  - split.
    + split; [|done]. intros _. by apply still_committed_false.
    + intros Hex. apply still_committed_true in Hex. congruence.
Qed.

(** *** ITEMS *)

(** Every id of the response is held under the key in the registry. *)
Definition covered (key : nat * string) (response : list (string * list string))
    (p : gmap (nat * string) (gset string)) : Prop :=
  ∀ tag ids id, Dict.get tag response = Some ids → id ∈ ids →
    ∃ held, p !! key = Some held ∧ id ∈ held.

Lemma cmd_items_body_run socket response tag (w : World C) :
  let r := apply_transforms (conf w) (Tag.get_tag tag (alltags w)) in
  cmd_items_body socket response tag w
  = (Ok (Dict.set tag r response),
     set_protection (Protect.protect (socket, "auto") r (protection w)) w).
Proof.
  unfold cmd_items_body, bind, get, modify, ret. simpl.
  by rewrite DictFacts.get_set_eq.
Qed.

Lemma cmd_items_loop socket (args : list string) : ∀ response (w : World C),
  covered (socket, "auto") response (protection w) →
  ∃ response' w',
    for_acc args (cmd_items_body socket) response w = (Ok response', w')
    ∧ trace w' = trace w
    ∧ covered (socket, "auto") response' (protection w').
Proof.
  induction args as [|tag args IH]; intros response w Hcov; simpl.
  - by exists response, w.
  - unfold bind. rewrite cmd_items_body_run. simpl.
    set (r := apply_transforms _ _).
    set (w1 := set_protection _ w).
    destruct (IH (Dict.set tag r response) w1) as (response' & w' & Hrun & Htr & Hc).
    + intros tag' ids id. rewrite DictFacts.get_set. unfold w1. simpl.
      rewrite protect_lookup. intros Hget Hid.
      eexists; split; [done|].
      case_decide.
      * injection Hget as <-. apply elem_of_union. right. by apply elem_of_list_to_set.
      * destruct (Hcov tag' ids id Hget Hid) as (held & -> & Hheld).
        apply elem_of_union. by left.
    + exists response', w'. by split_and!.
Qed.

(** C4. [cmd_items] first runs its loop, which writes nothing and ends in
    a world where every id of the response is held under [(socket, "auto")]
    in the protection registry; only then, from that world, the [ITEMS]
    response is written, and it is the one message of the command. *)
Theorem c4_items_protected_before_response (socket : nat) (args : list string) (w : World C) :
  ∃ response w1,
    for_acc args (cmd_items_body socket) [] w = (Ok response, w1)
    ∧ trace w1 = trace w
    ∧ covered (socket, "auto") response (protection w1)
    ∧ cmd_items socket args w = write socket "ITEMS" (PItems response) w1
    ∧ (cmd_items socket args w).1 = Ok tt
    ∧ trace (cmd_items socket args w).2
      = trace w ++ [Write socket "ITEMS" (PItems response)]
    ∧ covered (socket, "auto") response (protection (cmd_items socket args w).2).
Proof.
  destruct (cmd_items_loop socket args [] w) as (response & w1 & Hrun & Htr & Hc).
  { intros tag ids id Hget. done. }
  exists response, w1. unfold cmd_items, bind. rewrite Hrun.
  split_and!; try done. simpl. by rewrite Htr.
Qed.

(** *** CONFIGS *)



Definition log_errors (opts : list string) (w : World C) : World C :=
  foldl (λ w opt, emit (Log "error" ("Exception getting option " ++ opt)%string) w) w opts.

Lemma conf_log_errors opts : ∀ w, conf (log_errors opts w) = conf w.
Proof.
  induction opts as [|opt opts IH]; intros w; simpl; [done|].
  unfold log_errors in *. simpl. by rewrite IH.
Qed.







(** *** SETCONFIGS *)

Lemma dict_set_set {V} k (v v' : V) d : Dict.set k v (Dict.set k v' d) = Dict.set k v d.
Proof.
  induction d as [|[k1 v1] d IH]; simpl.
  - by rewrite decide_True.
  - case_decide; simpl; [by rewrite decide_True|].
    rewrite decide_False by done. by rewrite IH.
Qed.

(** The loop over the settings of a section leaves in [changes] the last
    setting alone: [changes.update] replaces the entry of the section. *)
Lemma cmd_setconfigs_set_last section settings (ks : list string) setting :
  ∀ changes (w : World C),
  ∃ w',
    for_acc (ks ++ [setting]) (cmd_setconfigs_set section settings) changes w
    = (Ok (Dict.set section [(setting, default "" (Dict.get setting settings))] changes), w').
Proof.
  induction ks as [|k ks IH]; intros changes w.
  - eexists. done.
  - cbn [app for_acc]. unfold bind at 1. unfold cmd_setconfigs_set at 1.
    unfold bind, modify, ret. 
    edestruct IH as [w' Hw']. exists w'. rewrite Hw'. by rewrite dict_set_set.
Qed.

(** *** Delivery *)

Lemma deliver_no_subscriber (c : hook_call) (w : World C) :
  filter (λ h, h.1 = c.1) (hooks w) = [] → deliver c w = (Ok tt, w).
Proof. intros Hf. unfold deliver, bind, get. by rewrite Hf. Qed.

Lemma hooks_setup_hooks (w : World C) :
  hooks (setup_hooks w).2
  = hooks w ++ [("new_tag", CbNewTag); ("del_tag", CbDelTag);
                ("config_change", CbConfigChange); ("tag_change", CbTagChange);
                ("kill_socket", CbKillSocket)].
Proof.
  unfold setup_hooks, bind, on_hook, modify. simpl.
  by rewrite <- !app_assoc.
Qed.

(** The dispatcher has no subscriber for the hook [add_tag] calls. *)
Lemma deliver_daemon_new_tag_unheard arg (w0 : World C) :
  hooks w0 = [] →
  ∀ w : World C, hooks w = hooks (setup_hooks w0).2 →
    deliver ("daemon_new_tag", arg) w = (Ok tt, w).
Proof.
  intros H0 w Hw. apply deliver_no_subscriber.
  rewrite Hw, hooks_setup_hooks, H0. done.
Qed.

Lemma for_each_write (sockets : list nat) cmd p : ∀ w : World C,
  for_each sockets (λ socket, write socket cmd p) w
  = (Ok tt, foldl (λ w socket, emit (Write socket cmd p) w) w sockets).
Proof.
  induction sockets as [|s sockets IH]; intros w; [done|].
  rewrite for_each_cons. unfold write at 1, modify. by rewrite IH.
Qed.

(** The hook the dispatcher does listen to reaches every watcher. *)
Lemma deliver_new_tag_heard names (w0 w : World C) :
  hooks w0 = [] →
  hooks w = hooks (setup_hooks w0).2 →
  deliver ("new_tag", ArgTags names) w
  = (Ok tt, foldl (λ w socket, emit (Write socket "NEWTAGS" (PTags names)) w) w
              (new_tags (watches w))).
Proof.
  intros H0 Hw. unfold deliver, bind at 1, get at 1.
  rewrite Hw, hooks_setup_hooks, H0. simpl.
  match goal with |- context [filter ?P ?l] =>
    replace (filter P l) with [("new_tag", CbNewTag)] by (by vm_compute) end.
  rewrite for_each_cons. simpl. unfold on_new_tag, bind at 1, get at 1.
  rewrite for_each_write. done.
Qed.

End handler_facts.

Lemma add_tag_create_published name st :
  ∀ c, c ∈ (Tag.add_tag_create name st).2 → c ∈ st.2 ∨ c = ("daemon_new_tag", ArgTags [name]).
Proof.
  intros c. unfold Tag.add_tag_create. destruct (negb _); simpl; [|auto].
  rewrite elem_of_app, list_elem_of_singleton. tauto.
Qed.

(** Every hook [add_tag] calls is ["daemon_new_tag"]. *)
Lemma add_tag_publishes_daemon_new_tag id name t c :
  c ∈ (Tag.add_tag id name t).2 → c.1 = "daemon_new_tag".
Proof.
  unfold Tag.add_tag.
  assert (∀ ks st, (∀ c, c ∈ st.2 → c.1 = "daemon_new_tag") →
            ∀ c, c ∈ (foldl (Tag.add_tag_body id) st ks).2 → c.1 = "daemon_new_tag") as Hfold.
  { induction ks as [|k ks IH]; intros st Hst; simpl; [done|].
    apply IH. intros c'. unfold Tag.add_tag_body, Tag.add_tag_append.
    destruct (negb (py_in _ _)); simpl; intros [?| ->]%add_tag_create_published; auto. }
  apply Hfold. simpl. by intros ? ?%elem_of_nil.
Qed.

Lemma add_tag_new_publishes id name t :
  Dict.mem name (Tag.tags t) = false →
  ("daemon_new_tag", ArgTags [name]) ∈ (Tag.add_tag id name t).2.
Proof.
  intros Hm. unfold Tag.add_tag, Tag.alladded. cbn [foldl].
  assert (∀ ks st c, c ∈ st.2 → c ∈ (foldl (Tag.add_tag_body id) st ks).2) as Hfold.
  { induction ks as [|k ks IH]; intros st c Hc; simpl; [done|].
    apply IH. unfold Tag.add_tag_body, Tag.add_tag_append.
    destruct (negb (py_in _ _)); simpl;
      unfold Tag.add_tag_create; destruct (negb _); simpl; try done;
      apply elem_of_app; by left. }
  apply Hfold. unfold Tag.add_tag_body, Tag.add_tag_append.
  assert (("daemon_new_tag", ArgTags [name]) ∈ (Tag.add_tag_create name (t, [])).2) as Hc.
  { unfold Tag.add_tag_create. simpl. rewrite Hm. simpl. apply list_elem_of_here. }
  by destruct (negb (py_in _ _)).
Qed.

End BackendFacts.

(** ** The dispatcher on concrete requests *)

Module DispatcherFacts.
Import Feed Backend DictConfig BackendFacts.

(** C3 fails on the code. Socket 7 watches new tags; [add_tag] creates
    the tag "comics" and calls the hook ["daemon_new_tag"], to which
    [setup_hooks] has subscribed nothing: delivering the call writes
    nothing. The hook ["new_tag"], which [on_config_change] calls, does
    reach the socket. *)
Theorem c3_new_tag_hook_not_delivered :
  let w := (cmd_watchnewtags 7 (setup_hooks (empty_world [])).2).2 in
  let published := (Tag.add_tag "item1" "comics" Tag.init).2 in
  new_tags (watches w) = [7]
  ∧ published = [("daemon_new_tag", ArgTags ["comics"])]
  ∧ for_each published deliver w = (Ok tt, w)
  ∧ trace w = []
  ∧ trace (deliver ("new_tag", ArgTags ["comics"]) w).2
    = [Write 7 "NEWTAGS" (PTags ["comics"])].
Proof. vm_compute. by split_and!. Qed.

(** C7 fails on the code. A request that sets two settings of one section
    applies both, and the payload of the one ["config_change"] call maps
    the section to the last setting only. *)
Theorem c7_setconfigs_payload_keeps_last_setting_only :
  let r := cmd_setconfigs 1 [("s", [("a", "1"); ("b", "2")])] (empty_world []) in
  r.1 = Ok tt
  ∧ conf r.2 = [("s", [("a", "1"); ("b", "2")])]
  ∧ trace r.2 = [Published "config_change" (ArgConfig [("s", [("b", "2")])])].
Proof. vm_compute. by split_and!. Qed.



(** C5 on two dead feeds, one of them with a protected item *)
Lemma c5_dead_feed_discarded_iff_unprotected_witness :
  let w := mkWorld (mkWatches [] [] [] ∅) ([] : config_map) Tag.init
             (Protect.protect (1, "auto") ["a"] ∅)
             (<["u1" := mkFeed "u1" [mkItem "a"; mkItem "b"]]>
                (<["u2" := mkFeed "u2" [mkItem "c"]]> ∅))
             [] [] in
  (∀ url f, dead_feeds w !! url = Some f → URL f = url)
  ∧ (check_dead_feeds w).1 = Ok tt
  ∧ dead_feeds (check_dead_feeds w).2 !! "u1" = Some (mkFeed "u1" [mkItem "a"; mkItem "b"])
  ∧ dead_feeds (check_dead_feeds w).2 !! "u2" = None.
Proof.
  intros w.
  assert (∀ url f, dead_feeds w !! url = Some f → URL f = url) as Hwf.
  { intros url f. unfold w. simpl. rewrite !lookup_insert_Some, lookup_empty.
    intros [[<- <-]|[_ [[<- <-]|[_ ?]]]]; done. }
  split; [exact Hwf|].
  destruct (c5_dead_feed_discarded_iff_unprotected w Hwf) as [Hr Hd].
  split; [exact Hr|]. split.
  - apply (Hd "u1" (mkFeed "u1" [mkItem "a"; mkItem "b"])); [done|].
    exists (mkItem "a"). split; [apply list_elem_of_here|]. by vm_compute.
  - apply (Hd "u2" (mkFeed "u2" [mkItem "c"])); [done|].
    intros it ->%list_elem_of_singleton. by vm_compute.
Defined.

End DispatcherFacts.

(** ** The shelf *)

Module StorageFacts.
Import Storage.

(** The three calls of [_reorganize] all return. *)
Definition reorganize_returns (db : Dbm) : Prop :=
  open_raises db = None ∧ reorganize_raises db = None ∧ close_raises db = None.

Lemma _reorganize_total (db : Dbm) (s : CantoShelf) :
  ∃ tr, _reorganize db s = (Ok tt, tr)
        ∧ (¬ reorganize_returns db → LogWarn "Failed to reorganize db:" ∈ tr).
Proof.
  unfold _reorganize, reorganize_returns, try_except_else, seq, attempt, act.
  destruct (open_raises db), (reorganize_raises db), (close_raises db); simpl;
    eexists; (split; [done|]); intros Hn;
    try (exfalso; by apply Hn);
    repeat (first [apply list_elem_of_here | apply list_elem_of_further]).
Qed.

(** C9. [close] on an open shelf syncs and closes the store first, clears
    the handle, calls the hook ["daemon_db_close"] last and returns,
    whatever the three calls of the reorganize pass do; when the file is a
    gdbm file and one of them raises, the warning is in the log. *)
Theorem c9_close_survives_reorganize_failure
    (db : Dbm) (wb : bool) (fn : string) (sh file : gmap string string) :
  ∃ middle,
    close db (mkState (mkShelf wb fn (Some sh)) file)
    = (Ok tt, mkState (mkShelf wb fn None) sh,
       [ShelfSync; ShelfClose] ++ middle ++ [HookCalled "daemon_db_close" (ArgFile fn)])
    ∧ (whichdb db fn = "dbm.gnu" → ¬ reorganize_returns db →
       LogWarn "Failed to reorganize db:" ∈ middle).
Proof.
  unfold close. simpl.
  destruct (bool_decide (whichdb db fn = "dbm.gnu")) eqn:Eg.
  - destruct (_reorganize_total db (mkShelf wb fn (Some sh))) as (tr & Hre & Hwarn).
    exists tr. rewrite Hre. simpl. split; [done|]. intros _. exact Hwarn.
  - exists []. simpl. split; [done|]. intros Hg. apply bool_decide_eq_false in Eg. done.
Qed.

End StorageFacts.

(** * Further properties *)

(** ** The tag registry *)

Module TagMore.
Import Tag DictFacts TagHistory TagFacts.

Lemma tag_items_elem_mem id n t : id ∈ tag_items n t → Dict.mem n (tags t) = true.
Proof.
  unfold tag_items. intros Hin. apply mem_true.
  destruct (Dict.get n (tags t)); [eauto|]. by apply elem_of_nil in Hin.
Qed.

Lemma elem_of_get_tags n t : n ∈ get_tags t ↔ Dict.mem n (tags t) = true.
Proof. unfold get_tags. by rewrite elem_of_keys, mem_true. Qed.

(** X1. After [add_tag], every name it visits (the tag and its extra tags) is a
    tag of the registry and holds the id: the id is appended where it was
    absent, a list that held it is unchanged, and so is every other tag. *)
Theorem add_tag_reaches_every_alias (id name : string) (t : CantoTags) (n : string) :
  get_tag n (add_tag id name t).1
  = (if decide (n ∈ alladded name t) then ins id (get_tag n t) else get_tag n t)
  ∧ (n ∈ alladded name t →
     id ∈ get_tag n (add_tag id name t).1 ∧ n ∈ get_tags (add_tag id name t).1).
Proof.
  rewrite !get_tag_tag_items, add_tag_items. split; [done|].
  intros Hn. rewrite decide_True by done.
  assert (id ∈ tag_items n (add_tag id name t).1) as Hid.
  { rewrite add_tag_items, decide_True by done. apply elem_of_ins. by left. }
  split; [by apply elem_of_ins; left|].
  by apply elem_of_get_tags, (tag_items_elem_mem id).
Qed.

Lemma times_app c l1 l2 : times c (l1 ++ l2) = times c l1 + times c l2.
Proof. unfold times. by rewrite filter_app, length_app. Qed.

Lemma times_singleton c c' : times c [c'] = if decide (c' = c) then 1 else 0.
Proof. unfold times. rewrite filter_cons, filter_nil. by case_decide. Qed.

Lemma mem_set {V} k k' (v : V) d :
  Dict.mem k' (Dict.set k v d) = if decide (k' = k) then true else Dict.mem k' d.
Proof.
  unfold Dict.mem. rewrite get_set.
  destruct (decide (k = k')), (decide (k' = k)); try congruence.
  apply bool_decide_eq_true. eauto.
Qed.

Lemma add_tag_body_mem id st k n :
  Dict.mem n (tags (add_tag_body id st k).1)
  = if decide (n = k) then true else Dict.mem n (tags st.1).
Proof.
  unfold add_tag_body.
  assert (Dict.mem n (tags (add_tag_create k st).1)
          = if decide (n = k) then true else Dict.mem n (tags st.1)) as Hc.
  { unfold add_tag_create. destruct (Dict.mem k (tags st.1)) eqn:Em; simpl.
    - case_decide; [by subst|done].
    - apply mem_set. }
  unfold add_tag_append.
  destruct (negb (py_in id (tag_items k (add_tag_create k st).1))); simpl; [|done].
  rewrite tags_tag_changed. simpl. rewrite mem_set.
  destruct (decide (n = k)) as [Heq|Hne]; [done|]. rewrite Hc.
  destruct (decide (n = k)); done.
Qed.

Lemma add_tag_body_published id st k :
  (add_tag_body id st k).2
  = st.2 ++ (if Dict.mem k (tags st.1) then [] else [("daemon_new_tag", ArgTags [k])]).
Proof.
  unfold add_tag_body, add_tag_append.
  assert ((add_tag_create k st).2
          = st.2 ++ (if Dict.mem k (tags st.1) then [] else [("daemon_new_tag", ArgTags [k])]))
    as Hc.
  { unfold add_tag_create. destruct (Dict.mem k (tags st.1)); simpl; [|done].
    by rewrite app_nil_r. }
  by destruct (negb (py_in _ _)).
Qed.

Lemma foldl_add_tag_body_times id n ks : ∀ st,
  times ("daemon_new_tag", ArgTags [n]) (foldl (add_tag_body id) st ks).2
  = times ("daemon_new_tag", ArgTags [n]) st.2
    + (if decide (n ∈ ks ∧ Dict.mem n (tags st.1) = false) then 1 else 0).
Proof.
  induction ks as [|k ks IH]; intros st; cbn [foldl].
  - rewrite decide_False; [lia|]. intros [?%elem_of_nil _]. done.
  - rewrite IH, add_tag_body_published, times_app, add_tag_body_mem.
    destruct (decide (n = k)) as [->|Hne].
    + rewrite (decide_False (P := _ ∧ true = false)) by (by intros [_ ?]).
      destruct (Dict.mem k (tags st.1)) eqn:Em.
      * rewrite decide_False by (by intros [_ ?]). unfold times. simpl. lia.
      * rewrite decide_True by (split; [apply list_elem_of_here|done]).
        rewrite times_singleton, decide_True by done. lia.
    + assert (times ("daemon_new_tag", ArgTags [n])
                (if Dict.mem k (tags st.1) then [] else [("daemon_new_tag", ArgTags [k])]) = 0)
        as ->.
      { destruct (Dict.mem k (tags st.1)); [done|].
        rewrite times_singleton, decide_False; [done|]. intros [= ?]. done. }
      destruct (decide (n ∈ ks ∧ Dict.mem n (tags st.1) = false)) as [[Hin Hm]|Hn].
      * rewrite decide_True; [lia|]. split; [by apply list_elem_of_further|done].
      * rewrite decide_False; [lia|]. intros [[?|?]%elem_of_cons ?]; [done|]. by apply Hn.
Qed.

(** X2. [add_tag] calls the hook ["daemon_new_tag"] exactly once for every
    visited name that was not yet a tag, also when the name is visited twice,
    and never for a name that is a tag already or is not visited. *)
Theorem add_tag_announces_new_tags_once (id name : string) (t : CantoTags) (n : string) :
  times ("daemon_new_tag", ArgTags [n]) (add_tag id name t).2
  = if decide (n ∈ alladded name t ∧ n ∉ get_tags t) then 1 else 0.
Proof.
  unfold add_tag. rewrite foldl_add_tag_body_times. simpl.
  destruct (decide (n ∈ alladded name t ∧ Dict.mem n (tags t) = false)) as [[H1 H2]|Hn].
  - rewrite decide_True; [done|]. split; [done|]. rewrite elem_of_get_tags. congruence.
  - rewrite decide_False; [done|]. intros [H1 H2]. apply Hn. split; [done|].
    rewrite elem_of_get_tags in H2. by destruct (Dict.mem n (tags t)).
Qed.

Lemma add_tag_body_changed id st k x :
  x ∈ changed_tags (add_tag_body id st k).1
  ↔ x ∈ changed_tags st.1 ∨ (x = k ∧ id ∉ tag_items k st.1).
Proof.
  unfold add_tag_body, add_tag_append.
  rewrite (add_tag_create_items k k st).
  assert (changed_tags (add_tag_create k st).1 = changed_tags st.1) as Hc.
  { unfold add_tag_create. by destruct (negb _). }
  destruct (py_in id (tag_items k st.1)) eqn:Ei; simpl.
  - apply py_in_true in Ei. rewrite Hc. split; [auto|]. intros [?|[_ ?]]; done.
  - apply py_in_false in Ei. rewrite changed_tags_tag_changed, elem_of_ins. simpl.
    rewrite Hc. split; [intros [->|?]; auto|]. intros [?|[-> _]]; auto.
Qed.

Lemma foldl_add_tag_body_changed id x ks : ∀ st,
  x ∈ changed_tags (foldl (add_tag_body id) st ks).1
  ↔ x ∈ changed_tags st.1 ∨ (x ∈ ks ∧ id ∉ tag_items x st.1).
Proof.
  induction ks as [|k ks IH]; intros st; cbn [foldl].
  - split; [auto|]. intros [?|[?%elem_of_nil _]]; done.
  - rewrite IH, add_tag_body_changed, add_tag_body_items, elem_of_cons.
    destruct (decide (x = k)) as [->|Hne].
    + split.
      * intros [[?|[_ ?]]|[_ Hn]]; auto. exfalso. apply Hn, elem_of_ins. by left.
      * intros [?|[_ ?]]; auto.
    + split.
      * intros [[?|[? _]]|[? ?]]; auto; done.
      * intros [?|[[?|?] ?]]; auto; done.
Qed.

(** X3. After [add_tag] the dirty list holds what it held before and the
    visited names whose list did not hold the id, and no other name. *)
Theorem add_tag_marks_exactly_the_grown_tags (id name : string) (t : CantoTags) (x : string) :
  x ∈ changed_tags (add_tag id name t).1
  ↔ x ∈ changed_tags t ∨ (x ∈ alladded name t ∧ id ∉ get_tag x t).
Proof.
  unfold add_tag. rewrite foldl_add_tag_body_changed. simpl.
  by rewrite get_tag_tag_items.
Qed.

(** *** Removal *)

Lemma run_NoDup (c : list string) (tr : list (string * transform))
    (ex : list (string * list string)) (ops : list op) (n : string) :
  NoDup (tag_items n (run ops (mkTags [] c tr ex)).1).
Proof.
  pose proof (foldl_step_Inv (mkTags [] c tr ex) ops 0 (mkTags [] c tr ex, [])
                (λ _ _, None) eq_refl (λ _, Inv_empty) n) as (Hnd & _).
  exact Hnd.
Qed.

Lemma keys_set {V} k (v : V) d :
  Dict.keys (Dict.set k v d) = if Dict.mem k d then Dict.keys d else Dict.keys d ++ [k].
Proof.
  unfold Dict.keys, Dict.mem. induction d as [|[k1 v1] d IH]; simpl; [done|].
  destruct (decide (k = k1)) as [->|Hne]; simpl; [done|].
  fold (fmap (M:=list) (@fst string V)). rewrite IH.
  destruct (bool_decide (is_Some (Dict.get k d))); done.
Qed.

Lemma remove_id_body_keys id t n :
  Dict.mem n (tags t) = true → Dict.keys (tags (remove_id_body id t n)) = Dict.keys (tags t).
Proof.
  intros Hm. unfold remove_id_body. destruct (py_in _ _); [|done].
  rewrite tags_tag_changed. simpl. by rewrite keys_set, Hm.
Qed.

Lemma remove_id_keys id t : get_tags (remove_id id t) = get_tags t.
Proof.
  unfold remove_id, get_tags.
  assert (∀ ks t', (∀ k, k ∈ ks → Dict.mem k (tags t') = true) →
            Dict.keys (tags (foldl (remove_id_body id) t' ks)) = Dict.keys (tags t')) as Hfold.
  { induction ks as [|k ks IH]; intros t' Hks; cbn [foldl]; [done|].
    rewrite IH.
    - apply remove_id_body_keys, Hks, list_elem_of_here.
    - intros k' Hk'. apply mem_true, elem_of_keys.
      rewrite remove_id_body_keys by apply Hks, list_elem_of_here.
      apply elem_of_keys, mem_true, Hks. by apply list_elem_of_further. }
  apply Hfold. intros k Hk. by apply mem_true, elem_of_keys.
Qed.

(** X4. In a registry reached from an empty one by [add_tag], [remove_tag] and
    [remove_id], [remove_id] leaves every tag with its list minus the id, in
    the same order, so the id is in no tag, and deletes no tag, emptied ones
    included. *)
Theorem remove_id_leaves_no_trace (c : list string) (tr : list (string * transform))
    (ex : list (string * list string)) (ops : list op) (id n : string) :
  let t := (run ops (mkTags [] c tr ex)).1 in
  get_tag n (remove_id id t) = filter (λ x, x ≠ id) (get_tag n t)
  ∧ (id ∉ get_tag n (remove_id id t))
  ∧ get_tags (remove_id id t) = get_tags t.
Proof.
  intros t. rewrite !get_tag_tag_items.
  assert (tag_items n (remove_id id t) = filter (λ x, x ≠ id) (tag_items n t)) as Heq.
  { rewrite remove_id_items by (intros m; apply run_NoDup).
    apply list_remove1_filter, run_NoDup. }
  split_and!; [done| |apply remove_id_keys].
  rewrite Heq, list_elem_of_filter. by intros [? _].
Qed.

Lemma remove_id_body_changed id t k x :
  x ∈ changed_tags (remove_id_body id t k)
  ↔ x ∈ changed_tags t ∨ (x = k ∧ id ∈ tag_items k t).
Proof.
  unfold remove_id_body. destruct (py_in id (tag_items k t)) eqn:Ei.
  - apply py_in_true in Ei. rewrite changed_tags_tag_changed, elem_of_ins. simpl.
    split; [intros [->|?]; auto|]. intros [?|[-> _]]; auto.
  - apply py_in_false in Ei. split; [auto|]. intros [?|[_ ?]]; done.
Qed.

Lemma foldl_remove_id_body_changed id x ks : ∀ t,
  x ∈ changed_tags (foldl (remove_id_body id) t ks)
  ↔ x ∈ changed_tags t ∨ (x ∈ ks ∧ id ∈ tag_items x t).
Proof.
  induction ks as [|k ks IH]; intros t; cbn [foldl].
  - split; [auto|]. intros [?|[?%elem_of_nil _]]; done.
  - rewrite IH, remove_id_body_changed, remove_id_body_items, elem_of_cons.
    destruct (decide (x = k)) as [->|Hne].
    + split.
      * intros [[?|[_ ?]]|[_ Hn]]; auto.
        right. split; [by left|]. eapply elem_of_sublist; [done|apply list_remove1_sublist].
      * intros [?|[_ ?]]; auto.
    + split.
      * intros [[?|[? _]]|[? ?]]; auto; done.
      * intros [?|[[?|?] ?]]; auto; done.
Qed.

(** X5. After [remove_id] the dirty list holds what it held before and the
    names of the tags that held the id, and no other name. *)
Theorem remove_id_marks_exactly_the_shrunk_tags (id : string) (t : CantoTags) (x : string) :
  x ∈ changed_tags (remove_id id t) ↔ x ∈ changed_tags t ∨ id ∈ get_tag x t.
Proof.
  unfold remove_id. rewrite foldl_remove_id_body_changed, get_tag_tag_items.
  split; [intros [?|[_ ?]]; auto|]. intros [?|Hin]; auto. right. split; [|done].
  by apply elem_of_keys, mem_true, (tag_items_elem_mem id).
Qed.

(** X6. [remove_tag] of an id the tag does not hold (or of an unknown tag)
    returns the registry as it was. Otherwise it drops the id from that tag
    only, marks that tag and no other dirty, and deletes no tag. *)
Theorem remove_tag_touches_one_tag (id name : string) (t : CantoTags) :
  (id ∉ get_tag name t → remove_tag id name t = t)
  ∧ (∀ n, get_tag n (remove_tag id name t)
          = if decide (n = name) then list_remove1 id (get_tag n t) else get_tag n t)
  ∧ (∀ x, x ∈ changed_tags (remove_tag id name t)
          ↔ x ∈ changed_tags t ∨ (x = name ∧ id ∈ get_tag name t))
  ∧ get_tags (remove_tag id name t) = get_tags t.
Proof.
  rewrite get_tag_tag_items. split_and!.
  - intros Hn. unfold remove_tag. apply py_in_false in Hn. rewrite Hn.
    by rewrite andb_false_r.
  - intros n. rewrite !get_tag_tag_items. apply remove_tag_items.
  - intros x. unfold remove_tag.
    destruct (Dict.mem name (tags t)) eqn:Em; simpl.
    + destruct (py_in id (tag_items name t)) eqn:Ei.
      * apply py_in_true in Ei. rewrite changed_tags_tag_changed, elem_of_ins. simpl.
        split; [intros [->|?]; auto|]. intros [?|[-> _]]; auto.
      * apply py_in_false in Ei. split; [auto|]. intros [?|[_ ?]]; done.
    + split; [auto|]. intros [?|[_ Hid]]; [done|].
      apply tag_items_elem_mem in Hid. congruence.
  - unfold remove_tag, get_tags.
    destruct (Dict.mem name (tags t)) eqn:Em; simpl; [|done].
    destruct (py_in _ _); [|done].
    rewrite tags_tag_changed. simpl. by rewrite keys_set, Em.
Qed.

(** *** Tags are never deleted *)

Lemma keys_set_prefix {V} k (v : V) d : Dict.keys d `prefix_of` Dict.keys (Dict.set k v d).
Proof. rewrite keys_set. destruct (Dict.mem k d); [done|]. by apply prefix_app_r. Qed.

Lemma add_tag_body_keys_prefix id st k :
  get_tags st.1 `prefix_of` get_tags (add_tag_body id st k).1.
Proof.
  unfold add_tag_body, add_tag_append, get_tags.
  assert (Dict.keys (tags st.1) `prefix_of` Dict.keys (tags (add_tag_create k st).1)) as Hc.
  { unfold add_tag_create. destruct (negb _); simpl; [apply keys_set_prefix|done]. }
  destruct (negb (py_in _ _)); simpl; [|done].
  rewrite tags_tag_changed. simpl. etrans; [exact Hc|apply keys_set_prefix].
Qed.

Lemma step_keys_prefix st o : get_tags st.1 `prefix_of` get_tags (step st o).1.
Proof.
  destruct st as [t p], o as [id name|id name|id]; simpl.
  - assert (∀ ks st, get_tags st.1 `prefix_of` get_tags (foldl (add_tag_body id) st ks).1)
      as Hfold.
    { induction ks as [|k ks IH]; intros st; cbn [foldl]; [done|].
      etrans; [apply add_tag_body_keys_prefix|apply IH]. }
    specialize (Hfold (alladded name t) (t, [])). unfold add_tag.
    by destruct (foldl _ _ _).
  - destruct (remove_tag_touches_one_tag id name t) as (_ & _ & _ & ->). done.
  - by rewrite remove_id_keys.
Qed.

(** X7. No sequence of [add_tag], [remove_tag] and [remove_id] deletes or
    reorders a tag: the tag names before are a prefix of the tag names after. *)
Theorem tags_are_never_deleted (ops : list op) (t : CantoTags) :
  get_tags t `prefix_of` get_tags (run ops t).1.
Proof.
  unfold run.
  assert (∀ ops st, get_tags st.1 `prefix_of` get_tags (foldl step st ops).1) as Hfold.
  { clear. induction ops as [|o ops IH]; intros st; cbn [foldl]; [done|].
    etrans; [apply step_keys_prefix|apply IH]. }
  apply (Hfold ops (t, [])).
Qed.

(** *** reset *)

Lemma foldl_tag_changed ks : ∀ t,
  tags (foldl (λ t tag, tag_changed tag t) t ks) = tags t
  ∧ extra_tags (foldl (λ t tag, tag_changed tag t) t ks) = extra_tags t
  ∧ tag_transforms (foldl (λ t tag, tag_changed tag t) t ks) = tag_transforms t
  ∧ (NoDup (changed_tags t) → NoDup (changed_tags (foldl (λ t tag, tag_changed tag t) t ks)))
  ∧ ∀ x, x ∈ changed_tags (foldl (λ t tag, tag_changed tag t) t ks)
         ↔ x ∈ changed_tags t ∨ x ∈ ks.
Proof.
  induction ks as [|k ks IH]; intros t; cbn [foldl].
  - split_and!; try done. intros x. split; [auto|]. intros [?|?%elem_of_nil]; done.
  - destruct (IH (tag_changed k t)) as (H1 & H2 & H3 & H4 & H5).
    rewrite H1, H2, H3, tags_tag_changed, extra_tags_tag_changed.
    split_and!; try done.
    + unfold tag_changed. by destruct (py_in _ _).
    + intros Hnd. apply H4. rewrite changed_tags_tag_changed. by apply ins_NoDup.
    + intros x. rewrite H5, changed_tags_tag_changed, elem_of_ins, elem_of_cons. tauto.
Qed.

(** X8. [reset] leaves no tag, no extra tags and no transforms, and the dirty
    list holds what it held before together with every tag that existed. *)
Theorem reset_empties_and_marks_every_tag (t : CantoTags) :
  get_tags (reset t) = []
  ∧ (∀ n, get_tag n (reset t) = [])
  ∧ extra_tags (reset t) = []
  ∧ tag_transforms (reset t) = []
  ∧ (∀ x, x ∈ changed_tags (reset t) ↔ x ∈ changed_tags t ∨ x ∈ get_tags t).
Proof.
  unfold reset.
  destruct (foldl_tag_changed (Dict.keys (tags t)) (mkTags (tags t) (changed_tags t) [] []))
    as (H1 & H2 & H3 & H4 & H5).
  split_and!; try done.
Qed.

(** X9. In a batch that started right after [do_tag_changes], a [reset]
    followed by [do_tag_changes] calls ["daemon_tag_change"] exactly once for
    every tag that existed or was dirty, and for no other name. *)
Theorem reset_is_notified_once_per_tag (t0 : CantoTags) (batch : list mutation) (n : string) :
  let t := (foldl mutate ((do_tag_changes t0).1, []) batch).1 in
  times ("daemon_tag_change", ArgTag n) (do_tag_changes (reset t)).2
  = if decide (n ∈ get_tags t ∨ n ∈ changed_tags t) then 1 else 0.
Proof.
  intros t. rewrite do_tag_changes_published, times_tag_change.
  assert (NoDup (changed_tags t)) as Hnd.
  { apply (grows_batch batch ((do_tag_changes t0).1, [])). constructor. }
  destruct (foldl_tag_changed (Dict.keys (tags t)) (mkTags (tags t) (changed_tags t) [] []))
    as (_ & _ & _ & H4 & H5).
  rewrite length_filter_eq_NoDup by (by apply H4).
  destruct (reset_empties_and_marks_every_tag t) as (_ & _ & _ & _ & Hc).
  destruct (decide (n ∈ changed_tags (reset t))) as [Hin|Hnin].
  - rewrite decide_True; [done|]. apply Hc in Hin. tauto.
  - rewrite decide_False; [done|]. intros Hor. apply Hnin, Hc. tauto.
Qed.

(** *** items_to_tags *)

Lemma items_to_tags_inner id t ks : ∀ acc,
  NoDup acc →
  let r := foldl (λ acc tag,
             if py_in id (tag_items tag t) && negb (py_in tag acc)
             then acc ++ [tag] else acc) acc ks in
  NoDup r ∧ ∀ n, n ∈ r ↔ n ∈ acc ∨ (n ∈ ks ∧ id ∈ tag_items n t).
Proof.
  induction ks as [|k ks IH]; intros acc Hnd; cbn [foldl].
  - split; [done|]. intros n. split; [auto|]. intros [?|[?%elem_of_nil _]]; done.
  - destruct (py_in id (tag_items k t)) eqn:Ei, (py_in k acc) eqn:Ea; simpl.
    + destruct (IH acc Hnd) as [H1 H2]. split; [done|]. intros n. rewrite H2, elem_of_cons.
      apply py_in_true in Ea. split; [tauto|]. intros [? | [[-> | ?] ?]]; auto.
    + apply py_in_false in Ea. apply py_in_true in Ei.
      destruct (IH (acc ++ [k])) as [H1 H2].
      { apply NoDup_app. split_and!; [done| |apply NoDup_singleton].
        by intros x Hx ->%list_elem_of_singleton. }
      split; [done|]. intros n.
      rewrite H2, elem_of_app, list_elem_of_singleton, elem_of_cons.
      split; [|tauto]. intros [[? | ->] | [? ?]]; auto.
    + destruct (IH acc Hnd) as [H1 H2]. split; [done|]. intros n. rewrite H2, elem_of_cons.
      apply py_in_false in Ei. split; [tauto|]. intros [? | [[-> | ?] ?]]; auto; done.
    + destruct (IH acc Hnd) as [H1 H2]. split; [done|]. intros n. rewrite H2, elem_of_cons.
      apply py_in_false in Ei. split; [tauto|]. intros [? | [[-> | ?] ?]]; auto; done.
Qed.

(** X10. [items_to_tags] returns each tag name at most once, and a name is
    returned exactly when it is a tag that holds one of the given ids. *)
Theorem items_to_tags_finds_each_tag_once (ids : list string) (t : CantoTags) :
  NoDup (items_to_tags ids t)
  ∧ ∀ n, n ∈ items_to_tags ids t
         ↔ n ∈ get_tags t ∧ ∃ id, id ∈ ids ∧ id ∈ get_tag n t.
Proof.
  unfold items_to_tags, get_tags.
  assert (∀ ids acc, NoDup acc →
    let r := foldl (λ acc id,
               foldl (λ acc tag,
                 if py_in id (tag_items tag t) && negb (py_in tag acc)
                 then acc ++ [tag] else acc) acc (Dict.keys (tags t))) acc ids in
    NoDup r ∧ ∀ n, n ∈ r ↔ n ∈ acc
                  ∨ (n ∈ Dict.keys (tags t) ∧ ∃ id, id ∈ ids ∧ id ∈ tag_items n t)) as Hout.
  { clear ids. induction ids as [|id ids IH]; intros acc Hnd; cbn [foldl].
    - split; [done|]. intros n. split; [auto|].
      intros [?|[_ (id & ?%elem_of_nil & _)]]; done.
    - destruct (items_to_tags_inner id t (Dict.keys (tags t)) acc Hnd) as [H1 H2].
      destruct (IH _ H1) as [H3 H4]. split; [done|]. intros n. rewrite H4, H2. split.
      + intros [[?|[? ?]]|[? (id' & ? & ?)]]; auto.
        * right. split; [done|]. exists id. split; [apply list_elem_of_here|done].
        * right. split; [done|]. exists id'. split; [by apply list_elem_of_further|done].
      + intros [?|[? (id' & [->|?]%elem_of_cons & ?)]]; auto. right. eauto. }
  destruct (Hout ids [] (NoDup_nil_2)) as [H1 H2]. split; [done|].
  intros n. rewrite H2. setoid_rewrite get_tag_tag_items.
  split; [|auto]. intros [?%elem_of_nil|?]; done.
Qed.

End TagMore.

(** ** The dispatcher *)

Module BackendMore.
Import Feed Backend ProtectFacts BackendFacts.

Section remove_while_more.
Context {A : Type} `{EqDecision A}.

Lemma filter_ne_list_remove1 (x : A) (l : list A) :
  filter (λ y, y ≠ x) (list_remove1 x l) = filter (λ y, y ≠ x) l.
Proof.
  induction l as [|z l IH]; simpl; [done|].
  destruct (decide (x = z)) as [->|Hne].
  - by rewrite filter_cons_False by (by intros ?).
  - rewrite !filter_cons. by rewrite IH.
Qed.

Lemma remove_while_filter (x : A) (l : list A) :
  remove_while x l = filter (λ y, y ≠ x) l.
Proof.
  funelim (remove_while x l).
  - match goal with IH : remove_while _ _ = filter _ _ |- _ => rewrite IH end.
    apply filter_ne_list_remove1.
  - symmetry. by apply filter_ne_notin.
Qed.
End remove_while_more.

Section handler_more.
Context {C : Type} `{Collaborators C}.

(** The world after the effects [es], oldest first *)
Definition emits (es : list effect) (w : World C) : World C :=
  mkWorld (watches w) (conf w) (alltags w) (protection w) (dead_feeds w) (hooks w)
          (trace w ++ es).

Lemma emits_nil (w : World C) : emits [] w = w.
Proof. unfold emits. rewrite app_nil_r. by destruct w. Qed.

Lemma foldl_emit_write (sockets : list nat) cmd p : ∀ w : World C,
  foldl (λ w socket, emit (Write socket cmd p) w) w sockets
  = emits ((λ socket, Write socket cmd p) <$> sockets) w.
Proof.
  induction sockets as [|s sockets IH]; intros w; simpl.
  - by rewrite emits_nil.
  - rewrite IH. unfold emits, emit. simpl. by rewrite <- app_assoc.
Qed.

(** X11. [on_new_tag], [on_del_tag] and [on_tag_change] return, write one
    message per entry of the watch list concerned, in the order of the list
    (a socket listed twice is written to twice), and change nothing else;
    [on_tag_change] of a tag nobody watches writes nothing. *)
Theorem notifications_follow_the_watch_lists (names : list string) (tag : string) (w : World C) :
  on_new_tag names w
  = (Ok tt, emits ((λ socket, Write socket "NEWTAGS" (PTags names))
                     <$> new_tags (watches w)) w)
  ∧ on_del_tag names w
    = (Ok tt, emits ((λ socket, Write socket "DELTAGS" (PTags names))
                       <$> del_tags (watches w)) w)
  ∧ on_tag_change tag w
    = (Ok tt, emits ((λ socket, Write socket "TAGCHANGE" (PString tag))
                       <$> default [] (tags (watches w) !! tag)) w).
Proof.
  unfold on_new_tag, on_del_tag, on_tag_change, bind, get.
  rewrite !for_each_write, !foldl_emit_write. split_and!; try done.
  destruct (tags (watches w) !! tag); simpl.
  - by rewrite for_each_write, foldl_emit_write.
  - by rewrite emits_nil.
Qed.

Lemma filter_eq_notin (tag : string) (args : list string) :
  tag ∉ args → filter (λ x, x = tag) args = [].
Proof.
  induction args as [|a args IH]; [done|]. intros [Hne Hn]%not_elem_of_cons.
  rewrite filter_cons_False by (by intros ->). by apply IH.
Qed.

(** *** WATCHTAGS *)

Definition occurrences (tag : string) (args : list string) : nat :=
  length (filter (λ x, x = tag) args).

(** The world after one round of the loop of [cmd_watchtags] *)
Definition watch_tag (socket : nat) (w : World C) (tag : string) : World C :=
  let w := emit (Log "debug" ("socket watching tag " ++ tag)%string) w in
  set_watches
    (mkWatches (new_tags (watches w)) (del_tags (watches w)) (config (watches w))
       (match tags (watches w) !! tag with
        | Some sockets => <[tag := sockets ++ [socket]]> (tags (watches w))
        | None => <[tag := [socket]]> (tags (watches w))
        end)) w.

Lemma cmd_watchtags_run (socket : nat) (args : list string) : ∀ w : World C,
  cmd_watchtags socket args w = (Ok tt, foldl (watch_tag socket) w args).
Proof.
  unfold cmd_watchtags. induction args as [|a args IH]; intros w; [done|].
  rewrite for_each_cons. unfold bind at 1, log at 1, modify at 1, modify at 1.
  cbn [fst snd]. by rewrite IH.
Qed.

Lemma watch_tag_lookup socket (w : World C) a tag :
  tags (watches (watch_tag socket w a)) !! tag
  = if decide (tag = a) then Some (default [] (tags (watches w) !! tag) ++ [socket])
    else tags (watches w) !! tag.
Proof.
  unfold watch_tag. simpl. destruct (tags (watches w) !! a) eqn:Ea.
  - rewrite lookup_insert. destruct (decide (a = tag)) as [<-|Hne].
    + rewrite decide_True by done. by rewrite Ea.
    + by rewrite decide_False by (by intros ->).
  - rewrite lookup_insert. destruct (decide (a = tag)) as [<-|Hne].
    + rewrite decide_True by done. by rewrite Ea.
    + by rewrite decide_False by (by intros ->).
Qed.

Lemma foldl_watch_tag (socket : nat) (args : list string) : ∀ w : World C,
  let w' := foldl (watch_tag socket) w args in
  new_tags (watches w') = new_tags (watches w)
  ∧ del_tags (watches w') = del_tags (watches w)
  ∧ config (watches w') = config (watches w)
  ∧ protection w' = protection w
  ∧ ∀ tag, tags (watches w') !! tag
           = if decide (tag ∈ args)
             then Some (default [] (tags (watches w) !! tag)
                        ++ replicate (occurrences tag args) socket)
             else tags (watches w) !! tag.
Proof.
  induction args as [|a args IH]; intros w; cbn [foldl].
  - by split_and!.
  - destruct (IH (watch_tag socket w a)) as (Hn & Hd & Hc & Hp & Ht). clear IH.
    split_and!; [by rewrite Hn|by rewrite Hd|by rewrite Hc|by rewrite Hp|].
    intros tag. rewrite Ht, watch_tag_lookup. unfold occurrences. rewrite filter_cons.
    destruct (decide (tag = a)) as [->|Hne].
    + rewrite (decide_True (P := a ∈ a :: args)) by apply list_elem_of_here.
      rewrite (decide_True (P := a = a)) by done.
      cbn [length replicate default].
      destruct (decide (a ∈ args)) as [Hin|Hnin].
      * unfold id. by rewrite <- app_assoc.
      * by rewrite filter_eq_notin.
    + rewrite (decide_False (P := a = tag)) by (by intros ->).
      destruct (decide (tag ∈ args)) as [Hin|Hnin].
      * by rewrite decide_True by by apply list_elem_of_further.
      * rewrite decide_False; [done|]. by intros [?|?]%elem_of_cons.
Qed.

(** X12. [cmd_watchtags] returns; the watch list of a requested tag is the
    former one (empty for a new tag) followed by the socket once per
    occurrence of the tag in the request; the other tags and the three other
    watch lists are unchanged. *)
Theorem watchtags_appends_the_socket_per_request (socket : nat) (args : list string)
    (w : World C) (tag : string) :
  let w' := (cmd_watchtags socket args w).2 in
  (cmd_watchtags socket args w).1 = Ok tt
  ∧ tags (watches w') !! tag
    = (if decide (tag ∈ args)
       then Some (default [] (tags (watches w) !! tag)
                  ++ replicate (occurrences tag args) socket)
       else tags (watches w) !! tag)
  ∧ new_tags (watches w') = new_tags (watches w)
  ∧ del_tags (watches w') = del_tags (watches w)
  ∧ config (watches w') = config (watches w).
Proof.
  rewrite cmd_watchtags_run. cbn [fst snd].
  destruct (foldl_watch_tag socket args w) as (Hn & Hd & Hc & _ & Ht).
  by split_and!.
Qed.

(** *** Dead feeds *)

Lemma check_dead_feeds_retires (w : World C) :
  (∀ url f, dead_feeds w !! url = Some f → URL f = url) →
  (check_dead_feeds w).1 = Ok tt
  ∧ ∀ url f, dead_feeds w !! url = Some f →
      (∀ it, it ∈ items f → Protect.protected (item_id it) (protection w) = false) →
      dead_feeds (check_dead_feeds w).2 !! url = None.
Proof.
  intros Hwf. rewrite check_dead_feeds_unfold.
  destruct (check_loop (map_to_list (dead_feeds w)).*1 w) as (Hr & _ & Hd); [| |done|].
  { apply NoDup_fst_map_to_list. }
  { intros url [[k f] [-> Hf]]%list_elem_of_fmap.
    apply elem_of_map_to_list in Hf. simpl. eauto. }
  split; [done|]. intros url f Hf Hall.
  assert (url ∈ (map_to_list (dead_feeds w)).*1) as Hin.
  { apply list_elem_of_fmap. exists (url, f). split; [done|]. by apply elem_of_map_to_list. }
  rewrite Hd, decide_True, Hf by done. simpl. unfold kept.
  apply still_committed_false in Hall. by rewrite Hall.
Qed.

(** *** Disconnect *)

Lemma on_kill_socket_run (socket : nat) (w : World C) :
  on_kill_socket socket w
  = check_dead_feeds
      (set_protection (Protect.unprotect (socket, "auto") (protection w))
        (set_watches
          (mkWatches (remove_while socket (new_tags (watches w)))
                     (remove_while socket (del_tags (watches w)))
                     (remove_while socket (config (watches w)))
                     (remove_while socket <$> tags (watches w))) w)).
Proof. done. Qed.

(** X13. After [on_kill_socket] every watch list is the former one without the
    socket, the other sockets in the same order, and every protection entry
    other than [(socket, "auto")] is unchanged. *)
Theorem kill_socket_removes_only_that_socket (socket : nat) (w : World C) :
  let w' := (on_kill_socket socket w).2 in
  config (watches w') = filter (λ s, s ≠ socket) (config (watches w))
  ∧ new_tags (watches w') = filter (λ s, s ≠ socket) (new_tags (watches w))
  ∧ del_tags (watches w') = filter (λ s, s ≠ socket) (del_tags (watches w))
  ∧ tags (watches w') = filter (λ s, s ≠ socket) <$> tags (watches w)
  ∧ ∀ key, key ≠ (socket, "auto") → protection w' !! key = protection w !! key.
Proof.
  intros w'. subst w'. rewrite on_kill_socket_run.
  match goal with |- context [check_dead_feeds ?w0] =>
    destruct (check_dead_feeds_frame w0) as [-> ->] end.
  simpl. rewrite !remove_while_filter. split_and!; try done.
  - apply map_fmap_ext. intros tag l _. apply remove_while_filter.
  - intros key Hkey. unfold Protect.unprotect. by rewrite lookup_delete_ne.
Qed.

(** X14. On a registry of dead feeds keyed by URL, when the items of a dead feed
    are protected by no entry other than [(socket, "auto")], [on_kill_socket]
    returns and leaves the feed out of the registry. *)
Theorem kill_socket_retires_feeds_it_alone_held (socket : nat) (w : World C)
    (url : string) (f : feed) :
  (∀ u g, dead_feeds w !! u = Some g → URL g = u) →
  dead_feeds w !! url = Some f →
  (∀ it key ids, it ∈ items f → key ≠ (socket, "auto") →
     protection w !! key = Some ids → item_id it ∉ ids) →
  (on_kill_socket socket w).1 = Ok tt
  ∧ dead_feeds (on_kill_socket socket w).2 !! url = None.
Proof.
  intros Hwf Hf Honly. rewrite on_kill_socket_run.
  match goal with |- context [check_dead_feeds ?w0] => set (w1 := w0) end.
  destruct (check_dead_feeds_retires w1) as [Hr Hd]; [done|].
  split; [done|]. apply (Hd url f Hf).
  intros it Hit. apply protected_false. intros key ids. unfold w1. simpl.
  unfold Protect.unprotect. intros [Hne Hk]%lookup_delete_Some.
  by apply (Honly it key ids).
Qed.

(** *** SETCONFIGS *)




(** *** ITEMS *)

Lemma cmd_items_content socket (args : list string) : ∀ response (w : World C),
  ∃ response' w',
    for_acc args (cmd_items_body socket) response w = (Ok response', w')
    ∧ conf w' = conf w ∧ alltags w' = alltags w ∧ watches w' = watches w
    ∧ dead_feeds w' = dead_feeds w ∧ trace w' = trace w
    ∧ ∀ tag, Dict.get tag response'
             = if decide (tag ∈ args)
               then Some (apply_transforms (conf w) (Tag.get_tag tag (alltags w)))
               else Dict.get tag response.
Proof.
  induction args as [|a args IH]; intros response w.
  - exists response, w. by split_and!.
  - cbn [for_acc]. unfold bind at 1. rewrite cmd_items_body_run. cbn zeta.
    match goal with |- context [for_acc args _ ?r ?w1] =>
      destruct (IH r w1) as (response' & w' & Hrun & Hc & Ha & Hw & Hd & Htr & Hg) end.
    exists response', w'. split_and!; try done.
    intros tag. rewrite Hg. cbn [set_protection conf alltags].
    destruct (decide (tag ∈ args)) as [Hin|Hnin].
    + by rewrite decide_True by by apply list_elem_of_further.
    + rewrite DictFacts.get_set. destruct (decide (a = tag)) as [->|Hne].
      * by rewrite decide_True by apply list_elem_of_here.
      * rewrite decide_False; [done|]. intros [?|?]%elem_of_cons; [congruence|done].
Qed.

(** X16. [cmd_items] leaves the tag registry and the watch lists as they were
    and writes one [ITEMS] response, whose keys are the requested tags, each
    with its transformed item list; an unknown tag gets the empty list when
    no global transform is set. *)
Theorem items_answers_every_requested_tag (socket : nat) (args : list string) (w : World C) :
  let w' := (cmd_items socket args w).2 in
  alltags w' = alltags w
  ∧ watches w' = watches w
  ∧ ∃ response,
      trace w' = trace w ++ [Write socket "ITEMS" (PItems response)]
      ∧ (∀ tag, Dict.get tag response
                = if decide (tag ∈ args)
                  then Some (apply_transforms (conf w) (Tag.get_tag tag (alltags w)))
                  else None)
      ∧ (∀ tag, tag ∈ args → tag ∉ Tag.get_tags (alltags w) →
                global_transform (conf w) = None → Dict.get tag response = Some []).
Proof.
  destruct (cmd_items_content socket args [] w)
    as (response & w1 & Hrun & Hc & Ha & Hw & Hd & Htr & Hg).
  assert (cmd_items socket args w
          = (Ok tt, emit (Write socket "ITEMS" (PItems response)) w1)) as ->.
  { unfold cmd_items, bind. by rewrite Hrun. }
  cbn [fst snd emit alltags watches trace]. split_and!; [done|done|].
  exists response. rewrite Htr. split_and!; [done|done|].
  intros tag Hin Hunknown Hnone. rewrite Hg, decide_True by done.
  unfold apply_transforms. rewrite Hnone. unfold Tag.get_tag, Tag.get_tags in *.
  unfold py_in. by rewrite bool_decide_eq_false_2.
Qed.

(** *** PROTECT and UNPROTECT *)

(** X17. [cmd_protect] returns; afterwards every id listed under a reason is
    held under [(socket, reason)], and everything that was held before still
    is. *)
Theorem protect_pins_every_listed_id (socket : nat) (args : list (string * list string))
    (w : World C) :
  let w' := (cmd_protect socket args w).2 in
  (cmd_protect socket args w).1 = Ok tt
  ∧ (∀ reason ids id, Dict.get reason args = Some ids → id ∈ ids →
       ∃ held, protection w' !! (socket, reason) = Some held ∧ id ∈ held)
  ∧ (∀ key held id, protection w !! key = Some held → id ∈ held →
       ∃ held', protection w' !! key = Some held' ∧ id ∈ held').
Proof.
  unfold cmd_protect.
  assert (∀ (reasons : list string) (w0 : World C),
    let r := for_each reasons (λ reason,
               modify (λ w, set_protection
                 (Protect.protect (socket, reason) (default [] (Dict.get reason args))
                    (protection w)) w)) w0 in
    r.1 = Ok tt
    ∧ (∀ reason id, reason ∈ reasons → id ∈ default [] (Dict.get reason args) →
         ∃ held, protection r.2 !! (socket, reason) = Some held ∧ id ∈ held)
    ∧ (∀ key held id, protection w0 !! key = Some held → id ∈ held →
         ∃ held', protection r.2 !! key = Some held' ∧ id ∈ held')) as Hloop.
  { induction reasons as [|reason reasons IH]; intros w0.
    - split_and!; [done| |eauto]. by intros ? ? ?%elem_of_nil.
    - cbn zeta. rewrite for_each_cons. unfold modify at 1.
      match goal with |- context [for_each reasons _ ?w1] =>
        destruct (IH w1) as (Hr & Hnew & Hold); set (w1' := w1) in * end.
      assert (∀ key held id, protection w0 !! key = Some held → id ∈ held →
                ∃ held', protection w1' !! key = Some held' ∧ id ∈ held') as Hstep.
      { intros key held id Hk Hid. unfold w1'. simpl. unfold Protect.protect.
        destruct (decide (key = (socket, reason))) as [->|Hne].
        - rewrite lookup_insert_eq, Hk. eexists; split; [done|]. simpl.
          apply elem_of_union. by left.
        - rewrite lookup_insert_ne by done. eauto. }
      split_and!; [done| |].
      + intros reason' id [->|Hin]%elem_of_cons Hid; [|by eapply Hnew].
        apply (Hold (socket, reason)
                 (default ∅ (protection w0 !! (socket, reason))
                  ∪ list_to_set (default [] (Dict.get reason args)))).
        * unfold w1'. simpl. apply protect_lookup.
        * apply elem_of_union. right. by apply elem_of_list_to_set.
      + intros key held id Hk Hid.
        destruct (Hstep key held id Hk Hid) as (held1 & Hk1 & Hid1). by eapply Hold. }
  cbn zeta. destruct (Hloop (Dict.keys args) w) as (Hr & Hnew & Hold).
  split_and!; [done| |done].
  intros reason ids id Hget Hid. apply Hnew.
  - apply DictFacts.elem_of_keys. eauto.
  - by rewrite Hget.
Qed.







End handler_more.
End BackendMore.

Module DispatcherMore.
Import Feed Backend DictConfig BackendFacts BackendMore.

(** X14 on a dead feed whose item only the socket protects *)
Lemma kill_socket_retires_feeds_it_alone_held_witness :
  let w := mkWorld (mkWatches [] [] [] ∅) ([] : config_map) Tag.init
             (Protect.protect (1, "auto") ["a"] ∅)
             (<["u1" := mkFeed "u1" [mkItem "a"]]> ∅) [] [] in
  (∀ u g, dead_feeds w !! u = Some g → URL g = u)
  ∧ dead_feeds w !! "u1" = Some (mkFeed "u1" [mkItem "a"])
  ∧ (∀ it key ids, it ∈ items (mkFeed "u1" [mkItem "a"]) → key ≠ (1, "auto") →
       protection w !! key = Some ids → item_id it ∉ ids)
  ∧ (on_kill_socket 1 w).1 = Ok tt
  ∧ dead_feeds (on_kill_socket 1 w).2 !! "u1" = None.
Proof.
  intros w.
  assert (∀ u g, dead_feeds w !! u = Some g → URL g = u) as Hwf.
  { intros u g. unfold w. simpl. rewrite lookup_insert_Some, lookup_empty.
    intros [[<- <-]|[_ ?]]; done. }
  assert (∀ it key ids, it ∈ items (mkFeed "u1" [mkItem "a"]) → key ≠ (1, "auto") →
            protection w !! key = Some ids → item_id it ∉ ids) as Honly.
  { intros it key ids _ Hkey. unfold w. simpl. unfold Protect.protect.
    rewrite lookup_insert_ne by done. by rewrite lookup_empty. }
  split; [exact Hwf|]. split; [done|]. split; [exact Honly|].
  apply (kill_socket_retires_feeds_it_alone_held 1 w "u1" (mkFeed "u1" [mkItem "a"]));
    [exact Hwf|done|exact Honly].
Defined.

End DispatcherMore.

(** ** The fetch countdown *)

Module TimerFacts.
Import Timer.

Lemma rounds_after_reset (signals : list bool) : ∀ t : Z,
  (1 ≤ t ≤ 60)%Z →
  Z.of_nat (rounds signals (mkClock false t)).2
  = ((Z.of_nat (alarms signals) + 60 - t) / 60)%Z
  ∧ alarmed (rounds signals (mkClock false t)).1 = false
  ∧ (1 ≤ fetch_timer (rounds signals (mkClock false t)).1 ≤ 60)%Z.
Proof.
  induction signals as [|signal signals IH]; intros t Ht.
  - simpl. split; [|split; [done|lia]]. unfold alarms. simpl.
    symmetry. apply Z.div_small. lia.
  - cbn [rounds]. unfold alarms in *. rewrite filter_cons.
    destruct signal.
    + rewrite decide_True by done. cbn [length].
      unfold sig_alrm, countdown. cbn [alarmed fetch_timer].
      destruct (Z.leb_spec (t - 1) 0) as [Hle|Hgt]; cbn [fst snd].
      * destruct (IH 60%Z ltac:(lia)) as (Hc & Ha & Hf). split; [|split; [done|done]].
        rewrite Nat2Z.inj_add, Hc. generalize (length (filter (λ s, s = true) signals)).
        intros n. Z.to_euclidean_division_equations. lia.
      * destruct (IH (t - 1)%Z ltac:(lia)) as (Hc & Ha & Hf). split; [|split; [done|done]].
        rewrite Nat2Z.inj_add, Hc. generalize (length (filter (λ s, s = true) signals)).
        intros n. Z.to_euclidean_division_equations. lia.
    + rewrite decide_False by done. unfold countdown. cbn [alarmed fst snd].
      destruct (IH t Ht) as (Hc & Ha & Hf). split; [|split; [done|done]].
      rewrite Nat2Z.inj_add, Hc. simpl. done.
Qed.

(** X19. From [init], the countdown calls [fetch] on the first round that sees
    the alarm and then on every sixtieth such round: after any rounds, the
    number of calls is the number of alarms seen plus 59, divided by 60;
    rounds without alarm change nothing, and the timer stays within 0..60. *)
Theorem fetch_every_sixty_alarms (signals : list bool) :
  (rounds signals init).2 = (alarms signals + 59) / 60
  ∧ alarmed (rounds signals init).1 = false
  ∧ (0 ≤ fetch_timer (rounds signals init).1 ≤ 60)%Z.
Proof.
  unfold init. induction signals as [|signal signals IH].
  - split; [done|split; [done|simpl; lia]].
  - cbn [rounds]. unfold alarms in *. rewrite filter_cons. destruct signal.
    + rewrite decide_True by done. cbn [length]. unfold sig_alrm, countdown.
      cbn [alarmed fetch_timer fst snd].
      assert ((0 - 1 <=? 0)%Z = true) as -> by done. cbn [fst snd].
      destruct (rounds_after_reset signals 60%Z ltac:(lia)) as (Hc & Ha & Hf).
      split; [|split; [done|lia]].
      unfold alarms in Hc.
      apply Nat2Z.inj. rewrite Nat2Z.inj_add, Hc, Nat2Z.inj_div, Nat2Z.inj_add.
      change (Z.of_nat 60) with 60%Z. change (Z.of_nat 59) with 59%Z.
      generalize (length (filter (λ s, s = true) signals)).
      intros n. Z.to_euclidean_division_equations. lia.
    + rewrite decide_False by done. unfold countdown. cbn [alarmed fst snd].
      destruct IH as (Hc & Ha & Hf). split; [|split; [done|done]]. simpl. done.
Qed.

End TimerFacts.

(** ** The shelf *)

Module StorageMore.
Import Storage StorageFacts.

#[export] Instance action_eq_dec : EqDecision action.
Proof. solve_decision. Defined.

Ltac count_filter :=
  repeat (rewrite filter_cons;
          first [rewrite decide_True by done | rewrite decide_False by done]).

Ltac not_in :=
  let Hin := fresh in
  intros Hin;
  repeat (apply elem_of_cons in Hin as [Hin|Hin]; [discriminate|]);
  by apply elem_of_nil in Hin.

Lemma close_open_shelf (db : Dbm) (wb : bool) (fn : string) (sh file : gmap string string) :
  ∃ tr, close db (mkState (mkShelf wb fn (Some sh)) file)
        = (Ok tt, mkState (mkShelf wb fn None) sh, tr)
        ∧ length (filter (λ a, a = HookCalled "daemon_db_close" (ArgFile fn)) tr) = 1
        ∧ (DbmOpen fn "wu" ∈ tr ↔ whichdb db fn = "dbm.gnu").
Proof.
  unfold close. simpl.
  destruct (bool_decide (whichdb db fn = "dbm.gnu")) eqn:Eg.
  - apply bool_decide_eq_true in Eg.
    unfold _reorganize, try_except_else, seq, attempt, act.
    destruct (open_raises db), (reorganize_raises db), (close_raises db); simpl;
      eexists; (split; [done|]); (split; [count_filter; done|]); (split; [done|]); intros _;
      repeat (first [apply list_elem_of_here | apply list_elem_of_further]).
  - apply bool_decide_eq_false in Eg. simpl. eexists. split; [done|].
    split; [count_filter; done|].
    split; [|done]. intros Hin.
    repeat (apply elem_of_cons in Hin as [Hin|Hin]; [discriminate|]).
    by apply elem_of_nil in Hin.
Qed.


(** X21. After [close], a second [close] and [sync] raise [AttributeError],
    item access raises [TypeError], none of them changes anything or calls a
    hook, and the file holds the records the shelf had. *)
Theorem closed_shelf_refuses_every_call (db : Dbm) (wb : bool) (fn : string)
    (sh disk : gmap string string) (name value : string) :
  let closed := (close db (mkState (mkShelf wb fn (Some sh)) disk)).1.2 in
  close db closed = (Raise AttributeError, closed, [])
  ∧ sync closed = (Raise AttributeError, closed, [])
  ∧ __getitem__ name closed = Raise TypeError
  ∧ __contains__ name closed = Raise TypeError
  ∧ __setitem__ name value closed = (Raise TypeError, closed)
  ∧ __delitem__ name closed = (Raise TypeError, closed)
  ∧ file closed = sh.
Proof.
  destruct (close_open_shelf db wb fn sh disk) as (tr & -> & _). by split_and!.
Qed.

(** X22. [_reorganize] never raises. When its three calls return it logs the
    debug line and no warning; when [dbm.open] raises, [reorganize] and
    [close] are not called; when [reorganize] raises, the database it opened
    is not closed. *)
Theorem reorganize_stops_at_the_first_failure (db : Dbm) (s : CantoShelf) :
  (_reorganize db s).1 = Ok tt
  ∧ (reorganize_returns db →
     (_reorganize db s).2
     = [DbmOpen (filename s) "wu"; DbmReorganize; DbmClose;
        LogDebug "Successfully trimmed db"])
  ∧ (open_raises db ≠ None →
     (DbmReorganize ∉ (_reorganize db s).2) ∧ (DbmClose ∉ (_reorganize db s).2))
  ∧ (reorganize_raises db ≠ None → DbmClose ∉ (_reorganize db s).2).
Proof.
  split_and!.
  - unfold _reorganize, try_except_else, seq, attempt, act.
    by destruct (open_raises db), (reorganize_raises db), (close_raises db).
  - intros (H1 & H2 & H3).
    unfold _reorganize, try_except_else, seq, attempt, act. by rewrite H1, H2, H3.
  - intros Hopen. unfold _reorganize, try_except_else, seq, attempt, act.
    destruct (open_raises db); [|done]. simpl. split; not_in.
  - intros Hre. unfold _reorganize, try_except_else, seq, attempt, act.
    destruct (open_raises db); simpl; [not_in|].
    destruct (reorganize_raises db); [|done]. simpl. not_in.
Qed.

(** X23. [close] opens the database for reorganizing exactly when [dbm.whichdb]
    answers ["dbm.gnu"]; for any other file its actions are sync, close and
    the hook; the hook ["daemon_db_close"] is called once in both cases. *)
Theorem close_reorganizes_gdbm_files_only (db : Dbm) (wb : bool) (fn : string)
    (sh file : gmap string string) :
  let r := close db (mkState (mkShelf wb fn (Some sh)) file) in
  (DbmOpen fn "wu" ∈ r.2 ↔ whichdb db fn = "dbm.gnu")
  ∧ (whichdb db fn ≠ "dbm.gnu" →
     r.2 = [ShelfSync; ShelfClose; HookCalled "daemon_db_close" (ArgFile fn)])
  ∧ length (filter (λ a, a = HookCalled "daemon_db_close" (ArgFile fn)) r.2) = 1.
Proof.
  cbn zeta. destruct (close_open_shelf db wb fn sh file) as (tr & Hc & Hn & Hg).
  split_and!.
  - by rewrite Hc.
  - intros Hne. unfold close. simpl. by rewrite bool_decide_eq_false_2.
  - by rewrite Hc.
Qed.

End StorageMore.
